(** * CircularBuffer: a FIFO ring buffer with growth and boundary policies

    Shallow embedding of [include/CircularBuffer.hpp].

    - [size_t] values are integers in [[0, 2^w)]; every arithmetic
      operation of the source on them is followed by an explicit [wrap].
    - The raw block behind [_elements] is a list of slots.  A slot holds
      [Some v] while a constructed object with value [v] lives in it and
      [None] otherwise (never constructed, or destroyed by [pop]); copying
      such a slot yields an indeterminate value, again written [None].
    - Accessing the block outside of the storage that was really obtained
      has no meaning in C++; the model stops with [Undefined].
    - A C++ exception is an outcome [Thrown e s] carrying the object state
      at the point of the throw. *)

From Stdlib Require Import ZArith Lia String.
From stdpp Require Import base tactics option list.

Local Open Scope Z_scope.

(** ** Policies *)

(** The growth policies of the header. *)
Inductive GrowPolicy := NoGrow | GrowSingle | GrowDouble.

(** The boundary checking policies of the header. *)
Inductive CheckBoundariesPolicy := NoBoundaryCheck | CheckBoundaryThrow.

(** The exceptions the header throws. *)
Inductive exn :=
| bad_alloc
| runtime_error (what : string).

(** A runtime that hands out every block in full: the whole request when it
    is positive, nothing otherwise. *)
Definition full_grant (n : Z) : Z := if 0 <? n then n else 0.

(** A runtime without storage left. *)
Definition no_grant (n : Z) : Z := 0.

(** A runtime short of storage: one element for every positive request. *)
Definition short_grant (n : Z) : Z := if 0 <? n then 1 else 0.

Section CircularBuffer.

(** Width of [size_t] in bits. *)
Variable w : Z.

(** Element type. *)
Variable T : Type.

(** [std::get_temporary_buffer<T>(n)]: the number of elements of the block the
    runtime hands out for a request of [n] elements (the [second] component
    of the returned pair).  The request is a [ptrdiff_t]. *)
Variable get_temporary_buffer : Z -> Z.

Definition wrap (x : Z) : Z := x mod 2 ^ w.

(** Conversion of a [size_t] argument to the [ptrdiff_t] parameter of
    [get_temporary_buffer] (two's complement). *)
Definition to_ptrdiff (x : Z) : Z :=
  if x <? 2 ^ (w - 1) then x else x - 2 ^ w.

(** *** Policy implementations *)

Definition newSize (G : GrowPolicy) (currentSize : Z) : Z :=
  match G with
  | NoGrow => currentSize
  | GrowSingle => wrap (currentSize + 1)
  | GrowDouble => wrap (currentSize * 2)
  end.

(** [None]: the check returns; [Some e]: it throws [e]. *)
Definition checkEmpty (C : CheckBoundariesPolicy) (count : Z) : option exn :=
  match C with
  | NoBoundaryCheck => None
  | CheckBoundaryThrow =>
      if count =? 0 then Some (runtime_error "buffer empty") else None
  end.

Definition checkFull (C : CheckBoundariesPolicy) (count size : Z) : option exn :=
  match C with
  | NoBoundaryCheck => None
  | CheckBoundaryThrow =>
      if count =? size then Some (runtime_error "buffer full") else None
  end.

(** ** Raw storage *)

(** A block of raw storage: one slot per element. *)
Local Abbreviation block := (list (option T)).

Definition in_block (b : block) (i : Z) : bool :=
  (0 <=? i) && (i <? Z.of_nat (length b)).

(** Reading slot [i]; [None] when [i] lies outside of the block. *)
Definition load (b : block) (i : Z) : option (option T) :=
  if in_block b i then b !! Z.to_nat i else None.

(** Overwriting slot [i]; [None] when [i] lies outside of the block. *)
Definition store (b : block) (i : Z) (v : option T) : option block :=
  if in_block b i then Some (<[Z.to_nat i := v]> b) else None.

(** A fresh uninitialized block of [n] slots. *)
Definition fresh_block (n : Z) : block := replicate (Z.to_nat n) None.

(** [for (i = from; i < from + n; ++i) new (&dst[dest i]) T(src[i])] *)
Fixpoint copy_loop (dest : Z -> Z) (src : block) (n : nat) (i : Z) (dst : block)
  : option block :=
  match n with
  | O => Some dst
  | S n' =>
      match load src i with
      | None => None
      | Some v =>
          match store dst (dest i) v with
          | None => None
          | Some dst' => copy_loop dest src n' (i + 1) dst'
          end
      end
  end.

(** ** The buffer object *)

Record CircularBuffer := mkCircularBuffer {
  _size : Z;
  _count : Z;
  _nextPushPos : Z;
  _nextPopPos : Z;
  _elements : block
}.

Definition set_size (v : Z) (s : CircularBuffer) : CircularBuffer :=
  mkCircularBuffer v (_count s) (_nextPushPos s) (_nextPopPos s) (_elements s).
Definition set_count (v : Z) (s : CircularBuffer) : CircularBuffer :=
  mkCircularBuffer (_size s) v (_nextPushPos s) (_nextPopPos s) (_elements s).
Definition set_nextPushPos (v : Z) (s : CircularBuffer) : CircularBuffer :=
  mkCircularBuffer (_size s) (_count s) v (_nextPopPos s) (_elements s).
Definition set_nextPopPos (v : Z) (s : CircularBuffer) : CircularBuffer :=
  mkCircularBuffer (_size s) (_count s) (_nextPushPos s) v (_elements s).
Definition set_elements (v : block) (s : CircularBuffer) : CircularBuffer :=
  mkCircularBuffer (_size s) (_count s) (_nextPushPos s) (_nextPopPos s) v.

(** ** Member functions as state transformers *)

Inductive outcome (A : Type) :=
| Done (a : A) (s : CircularBuffer)
| Thrown (e : exn) (s : CircularBuffer)
| Undefined.
Arguments Done {A} a s.
Arguments Thrown {A} e s.
Arguments Undefined {A}.

Definition M (A : Type) : Type := CircularBuffer -> outcome A.

Definition ret {A} (a : A) : M A := fun s => Done a s.

Definition bind {A B} (m : M A) (k : A -> M B) : M B :=
  fun s =>
    match m s with
    | Done a s' => k a s'
    | Thrown e s' => Thrown e s'
    | Undefined => Undefined
    end.

Definition throw {A} (e : exn) : M A := fun s => Thrown e s.
Definition get : M CircularBuffer := fun s => Done s s.
Definition modify (f : CircularBuffer -> CircularBuffer) : M unit :=
  fun s => Done tt (f s).

(** A policy check: returns or throws. *)
Definition check (r : option exn) : M unit :=
  match r with
  | None => ret tt
  | Some e => throw e
  end.

(** A block access: the result, or no defined behaviour. *)
Definition access {A} (r : option A) : M A :=
  match r with
  | Some a => ret a
  | None => fun _ => Undefined
  end.

#[local] Instance M_ret : MRet M := @ret.
#[local] Instance M_bind : MBind M := fun A B k m => bind m k.

(** [CircularBuffer(size_t size)] *)
Definition construct (size : Z) : exn + CircularBuffer :=
  let granted := get_temporary_buffer (to_ptrdiff size) in
  if granted =? 0 then inl bad_alloc
  else inr (mkCircularBuffer size 0 0 0 (fresh_block granted)).

Definition size (s : CircularBuffer) : Z := _size s.
Definition count (s : CircularBuffer) : Z := _count s.
Definition isEmpty (s : CircularBuffer) : bool := _count s =? 0.
Definition isFull (s : CircularBuffer) : bool := _count s =? _size s.

(** [advance(currentPos)]: the new value of the cursor. *)
Definition advance (s : CircularBuffer) (currentPos : Z) : Z :=
  let p := wrap (currentPos + 1) in
  if p =? _size s then 0 else p.

Definition resize (newSize : Z) : M unit :=
  s ← get;
  if _size s =? newSize then ret tt
  else
    let granted := get_temporary_buffer (to_ptrdiff newSize) in
    if granted =? 0 then throw bad_alloc
    else
      let newBuffer := fresh_block granted in
      let offset := wrap (newSize - _size s) in
      newBuffer ← access (copy_loop (fun i => i) (_elements s)
                                (Z.to_nat (_nextPushPos s)) 0 newBuffer);
      newBuffer ← access (copy_loop (fun i => wrap (i + offset)) (_elements s)
                                (Z.to_nat (_size s - _nextPushPos s))
                                (_nextPushPos s) newBuffer);
      modify (fun s => set_nextPopPos (wrap (_nextPopPos s + offset)) s);;
      modify (set_size newSize);;
      modify (set_elements newBuffer).

Section Policies.

Variable G : GrowPolicy.
Variable C : CheckBoundariesPolicy.

Definition push (elem : T) : M unit :=
  s ← get;
  check (checkFull C (_count s) (_size s));;
  (if isFull s then resize (newSize G (_size s)) else ret tt);;
  modify (fun s => set_count (wrap (_count s + 1)) s);;
  s ← get;
  elems ← access (store (_elements s) (_nextPushPos s) (Some elem));
  modify (set_elements elems);;
  modify (fun s => set_nextPushPos (advance s (_nextPushPos s)) s).

(** The returned copy is [None] when the slot held no constructed object. *)
Definition pop : M (option T) :=
  s ← get;
  check (checkEmpty C (_count s));;
  modify (fun s => set_count (wrap (_count s - 1)) s);;
  s ← get;
  let popPos := _nextPopPos s in
  modify (fun s => set_nextPopPos (advance s (_nextPopPos s)) s);;
  s ← get;
  elemCopy ← access (load (_elements s) popPos);
  elems ← access (store (_elements s) popPos None);
  modify (set_elements elems);;
  ret elemCopy.

(** [for(; count() > 0;) pop();] with a bound on the number of iterations;
    [None] when the bound is reached before the loop ends. *)
Fixpoint clear (fuel : nat) (s : CircularBuffer) : option (outcome unit) :=
  if 0 <? count s then
    match fuel with
    | O => None
    | S fuel' =>
        match pop s with
        | Done _ s' => clear fuel' s'
        | Thrown e s' => Some (Thrown e s')
        | Undefined => Some Undefined
        end
    end
  else Some (Done tt s).

End Policies.

(** [operator[]]: whatever occupies the physical slot. *)
Definition at_index (s : CircularBuffer) (index : Z) : option (option T) :=
  load (_elements s) index.

(** ** Specification vocabulary *)

(** A value of type [size_t]. *)
Definition size_t (x : Z) : Prop := 0 <= x < 2 ^ w.

(** The block has [_size] slots and the cursors point into it.  A block comes
    from [get_temporary_buffer], whose request is a positive [ptrdiff_t]. *)
Record in_bounds (s : CircularBuffer) : Prop := {
  ib_size : 0 < _size s < 2 ^ (w - 1);
  ib_block : Z.of_nat (length (_elements s)) = _size s;
  ib_head : 0 <= _nextPopPos s < _size s;
  ib_tail : 0 <= _nextPushPos s < _size s
}.

(** [Rep s l]: the live elements of [s], oldest first, are [l]; they occupy
    the [_count] slots that start at the pop cursor and end just before the
    push cursor, with wrap-around. *)
Record Rep (s : CircularBuffer) (l : list T) : Prop := {
  rep_bounds : in_bounds s;
  rep_count : _count s = Z.of_nat (length l);
  rep_le : _count s <= _size s;
  rep_tail : _nextPushPos s = (_nextPopPos s + _count s) mod _size s;
  rep_live : forall (k : nat) (v : T),
      l !! k = Some v ->
      _elements s !! Z.to_nat ((_nextPopPos s + Z.of_nat k) mod _size s)
      = Some (Some v)
}.

(** [push(v1); ...; push(vn);] *)
Fixpoint pushes (G : GrowPolicy) (C : CheckBoundariesPolicy) (vs : list T)
  : M unit :=
  match vs with
  | [] => ret tt
  | v :: vs' => push G C v;; pushes G C vs'
  end.

(** [n] calls of [pop()], collecting the returned copies in call order. *)
Fixpoint pops (C : CheckBoundariesPolicy) (n : nat) : M (list (option T)) :=
  match n with
  | O => ret []
  | S n' => x ← pop C; xs ← pops C n'; ret (x :: xs)
  end.

(** An empty buffer of capacity [c]. *)
Definition empty_buffer (c : Z) (s : CircularBuffer) : Prop :=
  in_bounds s /\ _size s = c /\ _count s = 0 /\
  _nextPushPos s = _nextPopPos s.

(** [0 <= count() <= size()] *)
Definition capacity_invariant (s : CircularBuffer) : Prop :=
  0 <= count s <= size s.

(** [_size] is a [size_t] and the count lies between 0 and it. *)
Definition counted (s : CircularBuffer) : Prop :=
  size_t (_size s) /\ 0 <= _count s <= _size s.

(** The object after a call that returned or threw. *)
Definition final {A} (o : outcome A) : option CircularBuffer :=
  match o with
  | Done _ s => Some s
  | Thrown _ s => Some s
  | Undefined => None
  end.

(** Calls of the public mutating member functions. *)
Inductive op :=
| OpPush (x : T)
| OpPop
| OpClear
| OpResize (newSize : Z).

Inductive step (G : GrowPolicy) (C : CheckBoundariesPolicy)
  : CircularBuffer -> op -> CircularBuffer -> Prop :=
| step_push x s s' :
    final (push G C x s) = Some s' -> step G C s (OpPush x) s'
| step_pop s s' :
    final (pop C s) = Some s' -> step G C s OpPop s'
| step_clear fuel o s s' :
    clear C fuel s = Some o -> final o = Some s' -> step G C s OpClear s'
| step_resize n s s' :
    size_t n -> final (resize n s) = Some s' -> step G C s (OpResize n) s'.

(** The objects a program can hold: constructed, then any sequence of calls
    among those [allowed] in the state they are made in. *)
Inductive reachable (G : GrowPolicy) (C : CheckBoundariesPolicy)
    (allowed : CircularBuffer -> op -> Prop) : CircularBuffer -> Prop :=
| reach_construct n s :
    size_t n -> construct n = inr s -> reachable G C allowed s
| reach_step s o s' :
    reachable G C allowed s -> allowed s o -> step G C s o s' ->
    reachable G C allowed s'.

(** Every call is allowed. *)
Definition any_call (s : CircularBuffer) (o : op) : Prop := True.

(** [resize] is not asked for less than the current count. *)
Definition resize_keeps_count (s : CircularBuffer) (o : op) : Prop :=
  match o with
  | OpResize n => _count s <= n
  | _ => True
  end.

(** [~CircularBuffer()]: [clear()], then the block goes back to the runtime
    through [return_temporary_buffer].  The result is the block as it is
    released; the object is left without storage. *)
Definition destructor (C : CheckBoundariesPolicy) (fuel : nat)
    (s : CircularBuffer) : option (outcome (list (option T))) :=
  match clear C fuel s with
  | None => None
  | Some (Done _ s') => Some (Done (_elements s') (set_elements [] s'))
  | Some (Thrown e s') => Some (Thrown e s')
  | Some Undefined => Some Undefined
  end.

(** The runtime hands out a block in full or not at all, and nothing for a
    request that is not positive. *)
Definition all_or_nothing : Prop :=
  forall n, get_temporary_buffer n = 0 \/
            (0 < n /\ get_temporary_buffer n = n).

(** [resize] is only asked for the current size or more. *)
Definition resize_grows (s : CircularBuffer) (o : op) : Prop :=
  match o with
  | OpResize n => _size s <= n
  | _ => True
  end.

(** The block and the cursors are in bounds and the count is a [size_t]. *)
Definition safe (s : CircularBuffer) : Prop :=
  in_bounds s /\ size_t (_count s).

(** [Tidy s l]: the queue of [s] is [l] and no other slot of the block holds
    a constructed object. *)
Definition Tidy (s : CircularBuffer) (l : list T) : Prop :=
  Rep s l /\
  forall k : nat,
    (length l <= k)%nat -> Z.of_nat k < _size s ->
    _elements s !! Z.to_nat ((_nextPopPos s + Z.of_nat k) mod _size s)
    = Some None.

(** *** The bounded queue the buffer implements with [CheckBoundaryThrow] *)

(** What a call gives back to the caller. *)
Inductive response :=
| Returned
| Popped (v : option T)
| Threw (e : exn).

(** One call on the buffer: the response and the object afterwards; [None]
    when the call has no defined behaviour.  [clear] runs with as many
    iterations as the count allows. *)
Definition call (G : GrowPolicy) (C : CheckBoundariesPolicy) (o : op)
    (s : CircularBuffer) : option (response * CircularBuffer) :=
  match o with
  | OpPush x =>
      match push G C x s with
      | Done _ s' => Some (Returned, s')
      | Thrown e s' => Some (Threw e, s')
      | Undefined => None
      end
  | OpPop =>
      match pop C s with
      | Done v s' => Some (Popped v, s')
      | Thrown e s' => Some (Threw e, s')
      | Undefined => None
      end
  | OpClear =>
      match clear C (Z.to_nat (_count s)) s with
      | Some (Done _ s') => Some (Returned, s')
      | Some (Thrown e s') => Some (Threw e, s')
      | _ => None
      end
  | OpResize n =>
      match resize n s with
      | Done _ s' => Some (Returned, s')
      | Thrown e s' => Some (Threw e, s')
      | Undefined => None
      end
  end.

(** A sequence of calls: the responses in call order and the last object. *)
Fixpoint calls (G : GrowPolicy) (C : CheckBoundariesPolicy) (os : list op)
    (s : CircularBuffer) : option (list response * CircularBuffer) :=
  match os with
  | [] => Some ([], s)
  | o :: os' =>
      match call G C o s with
      | None => None
      | Some (r, s') =>
          match calls G C os' s' with
          | None => None
          | Some (rs, s'') => Some (r :: rs, s'')
          end
      end
  end.

(** The reference: a list used as a FIFO queue of at most [cap] values. *)
Definition queue_call (cap : Z) (o : op) (l : list T) : response * list T :=
  match o with
  | OpPush x =>
      if Z.of_nat (length l) =? cap
      then (Threw (runtime_error "buffer full"), l)
      else (Returned, l ++ [x])
  | OpPop =>
      match l with
      | [] => (Threw (runtime_error "buffer empty"), [])
      | v :: l' => (Popped (Some v), l')
      end
  | OpClear => (Returned, [])
  | OpResize _ => (Returned, l)
  end.

Fixpoint queue_calls (cap : Z) (os : list op) (l : list T)
  : list response * list T :=
  match os with
  | [] => ([], l)
  | o :: os' =>
      let (r, l') := queue_call cap o l in
      let (rs, l'') := queue_calls cap os' l' in
      (r :: rs, l'')
  end.

(** A call other than [resize]. *)
Definition keeps_capacity (o : op) : Prop :=
  match o with
  | OpResize _ => False
  | _ => True
  end.

(** The calls after which the count is still what the buffer holds: every
    call with [CheckBoundaryThrow]; without a boundary check, no pop on an
    empty buffer and no push on a full buffer that [NoGrow] keeps from
    growing; and no [resize] below the current count. *)
Definition bookkeeping_kept (G : GrowPolicy) (C : CheckBoundariesPolicy)
    (s : CircularBuffer) (o : op) : Prop :=
  match o with
  | OpPush _ => C = CheckBoundaryThrow \/ G <> NoGrow \/ _count s <> _size s
  | OpPop => C = CheckBoundaryThrow \/ _count s <> 0
  | OpClear => True
  | OpResize n => _count s <= n
  end.

(** The size is a positive [ptrdiff_t] and the count lies between 0 and
    it. *)
Definition bounded (s : CircularBuffer) : Prop :=
  0 < _size s < 2 ^ (w - 1) /\ 0 <= _count s <= _size s.

(** ** Arithmetic of [size_t] *)

(** [size_t] has at least 16 bits. *)
Hypothesis w_min : 16 <= w.

Lemma pow_w_big : 65536 <= 2 ^ w.
Proof.
  change 65536 with (2 ^ 16). apply Z.pow_le_mono_r; lia.
Qed.

Lemma pow_w_half : 2 ^ w = 2 * 2 ^ (w - 1).
Proof.
  rewrite <- Z.pow_succ_r by lia. f_equal. lia.
Qed.

Lemma wrap_small x : 0 <= x < 2 ^ w -> wrap x = x.
Proof. intros. unfold wrap. apply Z.mod_small. lia. Qed.

Lemma wrap_minus_one : wrap (0 - 1) = 2 ^ w - 1.
Proof.
  pose proof pow_w_big. unfold wrap.
  replace (0 - 1) with (2 ^ w - 1 + (-1) * 2 ^ w) by lia.
  rewrite Z.mod_add by lia. apply Z.mod_small. lia.
Qed.

Lemma to_ptrdiff_small x : 0 <= x < 2 ^ (w - 1) -> to_ptrdiff x = x.
Proof.
  intros. unfold to_ptrdiff. destruct (Z.ltb_spec x (2 ^ (w - 1))); lia.
Qed.

(** ** The member functions, one equation per path *)

Ltac run_monad :=
  repeat (progress
    (unfold mbind, mret, M_bind, M_ret, bind, ret, get, modify, check, throw,
       access;
     cbn [_size _count _nextPushPos _nextPopPos _elements
          set_size set_count set_nextPushPos set_nextPopPos set_elements])).

Lemma push_checked_full G x s :
  _count s = _size s ->
  push G CheckBoundaryThrow x s = Thrown (runtime_error "buffer full") s.
Proof.
  intros Hfull. unfold push, checkFull. run_monad.
  rewrite (proj2 (Z.eqb_eq _ _) Hfull). reflexivity.
Qed.

Lemma push_not_full G C x s :
  _count s <> _size s ->
  push G C x s =
    match store (_elements s) (_nextPushPos s) (Some x) with
    | Some elems =>
        Done tt (mkCircularBuffer (_size s) (wrap (_count s + 1))
                   (advance s (_nextPushPos s)) (_nextPopPos s) elems)
    | None => Undefined
    end.
Proof.
  intros Hnf. apply Z.eqb_neq in Hnf.
  unfold push, checkFull, isFull. run_monad. rewrite Hnf.
  destruct C; run_monad;
    destruct (store (_elements s) (_nextPushPos s) (Some x)); reflexivity.
Qed.

Lemma pop_checked_empty s :
  _count s = 0 ->
  pop CheckBoundaryThrow s = Thrown (runtime_error "buffer empty") s.
Proof.
  intros Hempty. unfold pop, checkEmpty. run_monad.
  rewrite Hempty. reflexivity.
Qed.

Lemma pop_unchecked s :
  pop NoBoundaryCheck s =
    match load (_elements s) (_nextPopPos s) with
    | Some v =>
        match store (_elements s) (_nextPopPos s) None with
        | Some elems =>
            Done v (mkCircularBuffer (_size s) (wrap (_count s - 1))
                      (_nextPushPos s) (advance s (_nextPopPos s)) elems)
        | None => Undefined
        end
    | None => Undefined
    end.
Proof.
  unfold pop, checkEmpty. run_monad.
  destruct (load (_elements s) (_nextPopPos s)); [|reflexivity].
  destruct (store (_elements s) (_nextPopPos s) None); reflexivity.
Qed.

Lemma pop_not_empty C s :
  _count s <> 0 -> pop C s = pop NoBoundaryCheck s.
Proof.
  intros Hne. apply Z.eqb_neq in Hne. destruct C; [reflexivity|].
  unfold pop, checkEmpty. run_monad. rewrite Hne. reflexivity.
Qed.

(** ** Cursor arithmetic *)

Lemma mod_once n x :
  0 < n -> 0 <= x < 2 * n ->
  (x < n /\ x mod n = x) \/ (n <= x /\ x mod n = x - n).
Proof.
  intros Hn Hx. destruct (Z_lt_ge_dec x n) as [Hlt|Hge].
  - left. split; [lia|]. apply Z.mod_small. lia.
  - right. split; [lia|].
    replace x with (x - n + 1 * n) at 1 by lia.
    rewrite Z.mod_add by lia. apply Z.mod_small. lia.
Qed.

Lemma advance_mod s p :
  0 < _size s < 2 ^ w -> 0 <= p < _size s ->
  advance s p = (p + 1) mod _size s.
Proof.
  intros Hs Hp. unfold advance. rewrite wrap_small by lia.
  destruct (Z.eqb_spec (p + 1) (_size s)) as [->|Hne].
  - symmetry. apply Z.mod_same. lia.
  - symmetry. apply Z.mod_small. lia.
Qed.

Lemma advance_range s p :
  0 < _size s < 2 ^ w -> 0 <= p < _size s ->
  0 <= advance s p < _size s.
Proof.
  intros Hs Hp. rewrite advance_mod by assumption.
  apply Z.mod_pos_bound. lia.
Qed.

Lemma in_block_true (b : block) i :
  0 <= i < Z.of_nat (length b) -> in_block b i = true.
Proof.
  intros. unfold in_block.
  apply andb_true_intro; split; [apply Z.leb_le | apply Z.ltb_lt]; lia.
Qed.

Lemma load_in (b : block) i :
  0 <= i < Z.of_nat (length b) -> load b i = b !! Z.to_nat i.
Proof. intros. unfold load. rewrite in_block_true; auto. Qed.

Lemma store_in (b : block) i v :
  0 <= i < Z.of_nat (length b) -> store b i v = Some (<[Z.to_nat i := v]> b).
Proof. intros. unfold store. rewrite in_block_true; auto. Qed.

(** ** [push] and [pop] on the abstract queue *)

Lemma push_Rep G C x s l :
  Rep s l -> _count s < _size s ->
  exists s', push G C x s = Done tt s' /\ Rep s' (l ++ [x])
             /\ _size s' = _size s.
Proof.
  intros [[Hsz' Hblk Hhd Htl] Hcnt Hle Htail Hlive] Hlt.
  assert (Hsz : 0 < _size s < 2 ^ w) by (pose proof pow_w_half; lia).
  rewrite push_not_full by lia.
  rewrite store_in by lia.
  eexists. split; [reflexivity|]. split; [|reflexivity].
  assert (Hc0 : 0 <= _count s) by lia.
  constructor; cbn [_size _count _nextPushPos _nextPopPos _elements].
  - constructor; cbn [_size _count _nextPushPos _nextPopPos _elements];
      try assumption.
    + rewrite length_insert. assumption.
    + apply advance_range; assumption.
  - rewrite wrap_small by lia. rewrite length_app. cbn [length]. lia.
  - rewrite wrap_small by lia. lia.
  - rewrite advance_mod by assumption. rewrite wrap_small by lia.
    rewrite Htail. rewrite Z.add_mod_idemp_l by lia. f_equal. lia.
  - intros k v Hk.
    assert (Hkl : (k < length (l ++ [x]))%nat) by (eapply lookup_lt_Some; eauto).
    rewrite length_app in Hkl. cbn [length] in Hkl.
    destruct (mod_once (_size s) (_nextPopPos s + _count s)) as [[? Hm]|[? Hm]];
      [lia|lia| |];
      (destruct (mod_once (_size s) (_nextPopPos s + Z.of_nat k))
        as [[? Hk']|[? Hk']]; [lia|lia| |]);
      rewrite Htail, Hm, Hk';
      (destruct (decide (k = length l)) as [->|Hne];
       [ rewrite lookup_app_r in Hk by lia;
         rewrite Nat.sub_diag in Hk; cbn in Hk; inversion Hk; subst;
         replace (Z.to_nat _) with (Z.to_nat (_nextPushPos s)) by
           (rewrite Htail, Hm; lia);
         rewrite Htail, Hm; apply list_lookup_insert_eq; lia
       | rewrite lookup_app_l in Hk by lia;
         rewrite list_lookup_insert_ne by lia;
         rewrite <- Hk'; apply Hlive; assumption ]).
Qed.

Lemma pop_Rep C x s l :
  Rep s (x :: l) ->
  exists s', pop C s = Done (Some x) s' /\ Rep s' l /\ _size s' = _size s.
Proof.
  intros [[Hsz' Hblk Hhd Htl] Hcnt Hle Htail Hlive].
  assert (Hsz : 0 < _size s < 2 ^ w) by (pose proof pow_w_half; lia).
  cbn [length] in Hcnt.
  rewrite pop_not_empty, pop_unchecked by lia.
  rewrite load_in, store_in by lia.
  pose proof (Hlive 0%nat x eq_refl) as H0.
  rewrite Z.add_0_r, Z.mod_small in H0 by lia. rewrite H0.
  eexists. split; [reflexivity|]. split; [|reflexivity].
  constructor; cbn [_size _count _nextPushPos _nextPopPos _elements].
  - constructor; cbn [_size _count _nextPushPos _nextPopPos _elements];
      try assumption.
    + rewrite length_insert. assumption.
    + apply advance_range; assumption.
  - rewrite wrap_small by lia. lia.
  - rewrite wrap_small by lia. lia.
  - rewrite advance_mod by assumption. rewrite wrap_small by lia.
    rewrite Htail. rewrite Z.add_mod_idemp_l by lia. f_equal. lia.
  - intros k v Hk.
    assert (Hkl : (k < length l)%nat) by (eapply lookup_lt_Some; eauto).
    rewrite advance_mod by assumption.
    rewrite Z.add_mod_idemp_l by lia.
    replace (_nextPopPos s + 1 + Z.of_nat k)
      with (_nextPopPos s + Z.of_nat (S k)) by lia.
    pose proof (Hlive (S k) v Hk) as HS.
    destruct (mod_once (_size s) (_nextPopPos s + Z.of_nat (S k)))
      as [[? Hm]|[? Hm]]; [lia|lia| |];
      rewrite Hm in HS |- *;
      rewrite list_lookup_insert_ne by lia; exact HS.
Qed.

(** A block of [n] fresh slots behind cursors at [p] is an empty queue. *)
Lemma Rep_empty s :
  in_bounds s -> _count s = 0 -> _nextPushPos s = _nextPopPos s -> Rep s [].
Proof.
  intros Hb Hc Ht. pose proof Hb as [Hsz Hblk Hhd Htl].
  constructor; try assumption.
  - rewrite Hc. lia.
  - rewrite Hc, Z.add_0_r, Z.mod_small by lia. assumption.
  - intros k v Hk. inversion Hk.
Qed.

Lemma pushes_Rep G C vs : forall s l,
  Rep s l -> _count s + Z.of_nat (length vs) <= _size s ->
  exists s', pushes G C vs s = Done tt s' /\ Rep s' (l ++ vs)
             /\ _size s' = _size s.
Proof.
  induction vs as [|v vs IH]; intros s l HR Hle; cbn [pushes length] in *.
  - exists s. rewrite app_nil_r. auto.
  - destruct (push_Rep G C v s l HR) as (s1 & E1 & R1 & Z1); [lia|].
    destruct (IH s1 (l ++ [v]) R1) as (s2 & E2 & R2 & Z2).
    { rewrite Z1. destruct R1 as [_ Hc1 _ _ _]. destruct HR as [_ Hc _ _ _].
      rewrite Hc1, length_app. rewrite Hc in Hle. cbn [length]. lia. }
    exists s2. run_monad. rewrite E1. rewrite E2.
    rewrite <- app_assoc in R2. split; [reflexivity|]. split; [exact R2|lia].
Qed.

Lemma pops_Rep C l rest : forall s,
  Rep s (l ++ rest) ->
  exists s', pops C (length l) s = Done (map Some l) s' /\ Rep s' rest
             /\ _size s' = _size s.
Proof.
  induction l as [|x l IH]; intros s HR; cbn [pops length map].
  - exists s. auto.
  - destruct (pop_Rep C x s (l ++ rest) HR) as (s1 & E1 & R1 & Z1).
    destruct (IH s1 R1) as (s2 & E2 & R2 & Z2).
    exists s2. run_monad. rewrite E1, E2.
    split; [reflexivity|]. split; [exact R2|lia].
Qed.

(** ** Migration of the elements by [resize] *)

Lemma copy_loop_shift dest (src : block) d n : forall i (dst : block),
  0 <= i -> i + Z.of_nat n <= Z.of_nat (length src) ->
  0 <= i + d -> i + Z.of_nat n + d <= Z.of_nat (length dst) ->
  (forall j, i <= j < i + Z.of_nat n -> dest j = j + d) ->
  exists r : block,
    copy_loop dest src n i dst = Some r /\
    length r = length dst /\
    (forall j, i <= j < i + Z.of_nat n ->
               r !! Z.to_nat (j + d) = src !! Z.to_nat j) /\
    (forall m : nat, ~ (i + d <= Z.of_nat m < i + Z.of_nat n + d) ->
               r !! m = dst !! m).
Proof.
  induction n as [|n IH]; intros i dst Hi Hsrc Hd Hdst Hdest; cbn [copy_loop].
  - exists dst. repeat split; auto. intros j Hj. lia.
  - rewrite load_in by lia.
    destruct (lookup_lt_is_Some_2 src (Z.to_nat i)) as [v Hv]; [lia|].
    rewrite Hv. rewrite Hdest by lia. rewrite store_in by lia.
    destruct (IH (i + 1) (<[Z.to_nat (i + d) := v]> dst))
      as (r & Er & Lr & Hcopied & Hrest);
      try rewrite length_insert; try lia.
    { intros j Hj. apply Hdest. lia. }
    exists r. split; [exact Er|]. split; [rewrite Lr; apply length_insert|].
    split.
    + intros j Hj. destruct (Z.eq_dec j i) as [->|Hne].
      * rewrite Hrest by lia. rewrite list_lookup_insert_eq by lia.
        symmetry. exact Hv.
      * apply Hcopied. lia.
    + intros m Hm. rewrite Hrest by lia.
      apply list_lookup_insert_ne. lia.
Qed.

Lemma lookup_fresh_block n (m : nat) :
  Z.of_nat m < n -> fresh_block n !! m = Some None.
Proof. intros. unfold fresh_block. apply lookup_replicate_2. lia. Qed.

Lemma length_fresh_block n : 0 <= n -> Z.of_nat (length (fresh_block n)) = n.
Proof. intros. unfold fresh_block. rewrite length_replicate. lia. Qed.

(** What [resize] does when the buffer grows and the runtime hands out the
    whole block. *)
Lemma resize_grow s n :
  in_bounds s -> _size s < n < 2 ^ (w - 1) -> get_temporary_buffer n = n ->
  exists elems : block,
    resize n s = Done tt (mkCircularBuffer n (_count s) (_nextPushPos s)
                            (_nextPopPos s + (n - _size s)) elems) /\
    Z.of_nat (length elems) = n /\
    (forall j, 0 <= j < _nextPushPos s ->
               elems !! Z.to_nat j = _elements s !! Z.to_nat j) /\
    (forall j, _nextPushPos s <= j < _size s ->
               elems !! Z.to_nat (j + (n - _size s))
               = _elements s !! Z.to_nat j) /\
    (forall j, _nextPushPos s <= j < _nextPushPos s + (n - _size s) ->
               elems !! Z.to_nat j = Some None).
Proof.
  intros [Hsz Hblk Hhd Htl] Hn Hgrant.
  pose proof pow_w_half as Hhalf.
  unfold resize. run_monad.
  destruct (Z.eqb_spec (_size s) n) as [?|_]; [lia|].
  rewrite to_ptrdiff_small, Hgrant by lia.
  destruct (Z.eqb_spec n 0) as [?|_]; [lia|].
  rewrite (wrap_small (n - _size s)) by lia.
  pose proof (length_fresh_block n ltac:(lia)) as Hfresh.
  destruct (copy_loop_shift (fun i => i) (_elements s) 0
              (Z.to_nat (_nextPushPos s)) 0 (fresh_block n))
    as (r1 & E1 & L1 & C1 & K1); try lia.
  rewrite E1. run_monad.
  destruct (copy_loop_shift (fun i => wrap (i + (n - _size s))) (_elements s)
              (n - _size s) (Z.to_nat (_size s - _nextPushPos s))
              (_nextPushPos s) r1)
    as (r2 & E2 & L2 & C2 & K2); try lia.
  { intros j Hj. apply wrap_small. lia. }
  rewrite E2. run_monad.
  rewrite (wrap_small (_nextPopPos s + _)) by lia.
  exists r2. split; [reflexivity|]. split; [lia|]. split; [|split].
  - intros j Hj. rewrite K2 by lia.
    specialize (C1 j). rewrite Z.add_0_r in C1. apply C1. lia.
  - intros j Hj. apply C2. lia.
  - intros j Hj. rewrite K2, K1 by lia.
    apply lookup_fresh_block. lia.
Qed.

(** [resize] keeps the queue when the live elements reach the end of the
    block (the buffer is full, or the live range wraps around). *)
Lemma resize_Rep s l n :
  Rep s l -> 0 < _count s -> _nextPushPos s <= _nextPopPos s ->
  _size s < n < 2 ^ (w - 1) -> get_temporary_buffer n = n ->
  exists s', resize n s = Done tt s' /\ Rep s' l /\ _size s' = n.
Proof.
  intros [Hb Hcnt Hle Htail Hlive] Hpos Hwrapped Hn Hgrant.
  destruct (resize_grow s n Hb Hn Hgrant) as (elems & E & L & Hlow & Hhigh & _).
  destruct Hb as [Hsz Hblk Hhd Htl].
  pose proof pow_w_half as Hhalf.
  eexists. split; [exact E|]. split; [|reflexivity].
  assert (Hwrap : _size s <= _nextPopPos s + _count s /\
                  _nextPushPos s = _nextPopPos s + _count s - _size s).
  { destruct (mod_once (_size s) (_nextPopPos s + _count s))
      as [[? Hm]|[? Hm]]; lia. }
  destruct Hwrap as [Hge Htail'].
  constructor; cbn [_size _count _nextPushPos _nextPopPos _elements].
  - constructor; cbn [_size _count _nextPushPos _nextPopPos _elements]; lia.
  - assumption.
  - lia.
  - destruct (mod_once n (_nextPopPos s + (n - _size s) + _count s))
      as [[? Hm]|[? Hm]]; lia.
  - intros k v Hk.
    assert (Hkl : (k < length l)%nat) by (eapply lookup_lt_Some; eauto).
    specialize (Hlive k v Hk).
    destruct (mod_once (_size s) (_nextPopPos s + Z.of_nat k))
      as [[? Hm]|[? Hm]]; [lia|lia| |]; rewrite Hm in Hlive;
      (destruct (mod_once n (_nextPopPos s + (n - _size s) + Z.of_nat k))
        as [[? Hm']|[? Hm']]; [lia|lia| |]); rewrite Hm'; try lia.
    + rewrite <- Hlive.
      replace (_nextPopPos s + (n - _size s) + Z.of_nat k)
        with (_nextPopPos s + Z.of_nat k + (n - _size s)) by lia.
      apply Hhigh. lia.
    + rewrite <- Hlive.
      replace (_nextPopPos s + (n - _size s) + Z.of_nat k - n)
        with (_nextPopPos s + Z.of_nat k - _size s) by lia.
      apply Hlow. lia.
Qed.

(** Without a boundary check, a full buffer is resized and the push goes on
    in the resized buffer. *)
Lemma push_unchecked_full G x s s1 :
  _count s = _size s ->
  resize (newSize G (_size s)) s = Done tt s1 ->
  _count s1 <> _size s1 ->
  push G NoBoundaryCheck x s = push G NoBoundaryCheck x s1.
Proof.
  intros Hfull Hres Hnf. rewrite (push_not_full _ _ _ s1) by assumption.
  unfold push, checkFull, isFull. run_monad.
  rewrite (proj2 (Z.eqb_eq _ _) Hfull). rewrite Hres. run_monad.
  destruct (store (_elements s1) (_nextPushPos s1) (Some x)); reflexivity.
Qed.

Lemma full_cursors s l :
  Rep s l -> _count s = _size s -> _nextPushPos s = _nextPopPos s.
Proof.
  intros [[Hsz Hblk Hhd Htl] Hcnt Hle Htail Hlive] Hfull.
  rewrite Htail, Hfull.
  destruct (mod_once (_size s) (_nextPopPos s + _size s)) as [[? Hm]|[? Hm]];
    lia.
Qed.

(** Growth on a push: the policy's new size is larger, representable as a
    request, and handed out in full. *)
Lemma push_grow_Rep G x s l :
  Rep s l -> _count s = _size s ->
  _size s < newSize G (_size s) < 2 ^ (w - 1) ->
  get_temporary_buffer (newSize G (_size s)) = newSize G (_size s) ->
  exists s', push G NoBoundaryCheck x s = Done tt s' /\ Rep s' (l ++ [x]) /\
             _size s' = newSize G (_size s).
Proof.
  intros HR Hfull Hn Hgrant.
  pose proof (full_cursors s l HR Hfull) as Hcur.
  assert (Hpos : 0 < _count s).
  { destruct HR as [[Hsz _ _ _] _ _ _ _]. lia. }
  destruct (resize_Rep s l _ HR Hpos ltac:(lia) Hn Hgrant)
    as (s1 & E1 & R1 & Z1).
  assert (Hc1 : _count s1 = _count s).
  { destruct R1 as [_ Hc1 _ _ _], HR as [_ Hc _ _ _]. lia. }
  rewrite (push_unchecked_full G x s s1 Hfull E1) by lia.
  destruct (push_Rep G NoBoundaryCheck x s1 l R1 ltac:(lia))
    as (s2 & E2 & R2 & Z2).
  exists s2. split; [exact E2|]. split; [exact R2|lia].
Qed.

(** ** Construction *)

Lemma construct_ok c :
  0 < c < 2 ^ (w - 1) -> get_temporary_buffer c = c ->
  construct c = inr (mkCircularBuffer c 0 0 0 (fresh_block c)) /\
  empty_buffer c (mkCircularBuffer c 0 0 0 (fresh_block c)).
Proof.
  intros Hc Hgrant. unfold construct.
  rewrite to_ptrdiff_small, Hgrant by lia.
  destruct (Z.eqb_spec c 0) as [?|_]; [lia|]. split; [reflexivity|].
  repeat split; cbn [_size _count _nextPushPos _nextPopPos _elements];
    try lia.
  apply length_fresh_block. lia.
Qed.

(** The constructor refuses every size that is not a positive [ptrdiff_t],
    size 0 included, when the runtime follows the C++ standard (no storage
    for a request that is not positive). *)
Lemma construct_size c s :
  (forall n, n <= 0 -> get_temporary_buffer n = 0) ->
  size_t c -> construct c = inr s -> 0 < _size s < 2 ^ (w - 1).
Proof.
  intros Hstd Hc. unfold construct, to_ptrdiff.
  destruct (Z.ltb_spec c (2 ^ (w - 1))) as [Hlt|Hge].
  - destruct (Z.eq_dec c 0) as [->|Hne].
    + rewrite Hstd by lia. discriminate.
    + destruct (_ =? 0); [discriminate|]. intros [= <-].
      cbn [_size]. unfold size_t in Hc. lia.
  - rewrite Hstd by (unfold size_t in Hc; lia). discriminate.
Qed.

Lemma empty_buffer_Rep c s : empty_buffer c s -> Rep s [].
Proof. intros (Hb & _ & Hc & Ht). apply Rep_empty; assumption. Qed.

(** ** FIFO order *)

(** FIFO order on an empty buffer whose cursors coincide, as the
    constructor, the pops and [clear] leave it: pushing [vs] (at most [c]
    values) and popping as many times returns exactly [vs], in order, under
    every growth and boundary policy; and when [c >= 1], a push of [x]
    followed by a pop returns [x]. *)
Theorem fifo_order G C c s (vs : list T) (x : T) :
  empty_buffer c s ->
  (Z.of_nat (length vs) <= c ->
   exists s1 s2, pushes G C vs s = Done tt s1 /\
                 pops C (length vs) s1 = Done (map Some vs) s2) /\
  (1 <= c ->
   exists s1 s2, push G C x s = Done tt s1 /\ pop C s1 = Done (Some x) s2).
Proof.
  intros He. pose proof (empty_buffer_Rep c s He) as HR.
  destruct He as (Hb & Hsize & Hcount & Hcur). split.
  - intros Hlen.
    destruct (pushes_Rep G C vs s [] HR) as (s1 & E1 & R1 & _); [lia|].
    cbn [app] in R1. rewrite <- (app_nil_r vs) in R1.
    destruct (pops_Rep C vs [] s1 R1) as (s2 & E2 & _).
    exists s1, s2. split; assumption.
  - intros Hc.
    destruct (push_Rep G C x s [] HR) as (s1 & E1 & R1 & _); [lia|].
    destruct (pop_Rep C x s1 [] R1) as (s2 & E2 & _).
    exists s1, s2. split; assumption.
Qed.

(** ** Checked boundaries *)

(** C7. With [CheckBoundaryThrow] and [NoGrow]: a push on a full buffer
    throws and leaves the whole object as it was; a pop on an empty buffer
    throws and leaves the whole object as it was. *)
Theorem checked_nogrow_errors (x : T) s :
  (_count s = _size s ->
   push NoGrow CheckBoundaryThrow x s
   = Thrown (runtime_error "buffer full") s) /\
  (_count s = 0 ->
   pop CheckBoundaryThrow s = Thrown (runtime_error "buffer empty") s).
Proof.
  split; intros H.
  - apply push_checked_full. exact H.
  - apply pop_checked_empty. exact H.
Qed.

(** C9. With [CheckBoundaryThrow], a push on a full buffer throws before the
    growth policy is asked: the object is unchanged, the outcome of a push
    is the same for any two growth policies, and no push changes [size()]. *)
Theorem checked_push_never_grows G G' (x : T) s :
  (_count s = _size s ->
   push G CheckBoundaryThrow x s = Thrown (runtime_error "buffer full") s) /\
  push G CheckBoundaryThrow x s = push G' CheckBoundaryThrow x s /\
  (forall s', final (push G CheckBoundaryThrow x s) = Some s' ->
              size s' = size s).
Proof.
  split; [apply push_checked_full|].
  destruct (Z.eq_dec (_count s) (_size s)) as [Hfull|Hnf].
  - rewrite !push_checked_full by assumption. split; [reflexivity|].
    cbn [final]. intros s' [= <-]. reflexivity.
  - rewrite !push_not_full by assumption. split; [reflexivity|].
    destruct (store _ _ _); cbn [final]; [|discriminate].
    intros s' [= <-]. reflexivity.
Qed.

(** ** Unchecked boundaries *)

(** C10. With [NoBoundaryCheck], a pop on an empty buffer returns, and the
    count has wrapped around: [count() = 2^w - 1], [isEmpty()] is false and
    [count() > size()]. *)
Theorem unchecked_pop_empty_wraps s :
  in_bounds s -> _count s = 0 ->
  exists v s', pop NoBoundaryCheck s = Done v s' /\
               count s' = wrap (count s - 1) /\
               count s' = 2 ^ w - 1 /\
               isEmpty s' = false /\
               size s' < count s'.
Proof.
  intros [Hsz Hblk Hhd Htl] Hempty.
  pose proof pow_w_half as Hhalf.
  rewrite pop_unchecked, load_in, store_in by lia.
  destruct (lookup_lt_is_Some_2 (_elements s) (Z.to_nat (_nextPopPos s)))
    as [v Hv]; [lia|].
  rewrite Hv. eexists _, _. split; [reflexivity|].
  unfold count, size, isEmpty. cbn [_size _count].
  rewrite Hempty, wrap_minus_one.
  repeat split; lia.
Qed.

(** ** [clear] *)

Lemma pop_in_bounds C s :
  in_bounds s -> _count s <> 0 ->
  exists v s', pop C s = Done v s' /\ in_bounds s' /\
               _count s' = wrap (_count s - 1) /\ _size s' = _size s.
Proof.
  intros [Hsz Hblk Hhd Htl] Hne. pose proof pow_w_half as Hhalf.
  rewrite pop_not_empty, pop_unchecked, load_in, store_in by lia.
  destruct (lookup_lt_is_Some_2 (_elements s) (Z.to_nat (_nextPopPos s)))
    as [v Hv]; [lia|].
  rewrite Hv. eexists _, _. split; [reflexivity|].
  split; [|split; reflexivity].
  constructor; cbn [_size _count _nextPushPos _nextPopPos _elements];
    try assumption.
  - rewrite length_insert. assumption.
  - apply advance_range; lia.
Qed.

Lemma pop_nonempty_no_throw C s e s' :
  _count s <> 0 -> pop C s <> Thrown e s'.
Proof.
  intros Hne. rewrite pop_not_empty, pop_unchecked by assumption.
  destruct (load _ _); [|discriminate].
  destruct (store _ _ _); discriminate.
Qed.

Lemma clear_no_throw C fuel : forall s e s',
  clear C fuel s <> Some (Thrown e s').
Proof.
  induction fuel as [|fuel IH]; intros s e s'; cbn [clear]; unfold count;
    destruct (Z.ltb_spec 0 (_count s)) as [Hpos|Hle]; try discriminate.
  pose proof (pop_nonempty_no_throw C s) as Hpop.
  destruct (pop C s) as [v s1|e1 s1|]; [apply IH| |discriminate].
  exfalso. apply (Hpop e1 s1); [lia|reflexivity].
Qed.

Lemma clear_empty C s fuel :
  _count s = 0 -> clear C fuel s = Some (Done tt s).
Proof.
  intros Hc. destruct fuel; cbn [clear]; unfold count; rewrite Hc; reflexivity.
Qed.

Lemma clear_runs C n : forall s,
  in_bounds s -> _count s = Z.of_nat n -> Z.of_nat n < 2 ^ w ->
  exists s', (forall fuel, (n <= fuel)%nat ->
                           clear C fuel s = Some (Done tt s')) /\
             (exists vs, pops C n s = Done vs s') /\
             _count s' = 0.
Proof.
  induction n as [|n IH]; intros s Hb Hcnt Hn.
  - exists s. split; [|split].
    + intros fuel _. apply clear_empty. exact Hcnt.
    + exists []. reflexivity.
    + exact Hcnt.
  - destruct (pop_in_bounds C s Hb) as (v & s1 & E1 & Hb1 & Hc1 & _); [lia|].
    rewrite Hcnt, wrap_small in Hc1 by lia.
    destruct (IH s1 Hb1) as (s' & Hclear & (vs & Hpops) & Hzero);
      [lia|lia|].
    exists s'. split; [|split].
    + intros fuel Hfuel. destruct fuel as [|fuel]; [lia|].
      cbn [clear]. unfold count.
      destruct (Z.ltb_spec 0 (_count s)); [|lia].
      rewrite E1. apply Hclear. lia.
    + exists (v :: vs). cbn [pops]. run_monad. rewrite E1, Hpops. reflexivity.
    + exact Hzero.
Qed.

(** C8. [clear] never throws, whatever the object and the boundary policy
    (it takes no growth policy); on an empty buffer it returns the object as
    it was; and on an object whose block and cursors are in bounds it
    returns, after exactly [count()] pops, with [count() = 0]. *)
Theorem clear_pops_until_empty C s :
  (forall fuel e s', clear C fuel s <> Some (Thrown e s')) /\
  (_count s = 0 -> forall fuel, clear C fuel s = Some (Done tt s)) /\
  (in_bounds s -> size_t (_count s) ->
   exists s',
     (forall fuel, (Z.to_nat (_count s) <= fuel)%nat ->
                   clear C fuel s = Some (Done tt s')) /\
     (exists vs, pops C (Z.to_nat (_count s)) s = Done vs s') /\
     count s' = 0).
Proof.
  split; [intros fuel; apply clear_no_throw|].
  split; [intros H0 fuel; apply clear_empty; exact H0|].
  intros Hb [Hc0 Hc1].
  apply (clear_runs C (Z.to_nat (_count s)) s Hb); lia.
Qed.

(** ** The capacity invariant *)

Lemma construct_counted n s : size_t n -> construct n = inr s -> counted s.
Proof.
  intros Hn. unfold construct. destruct (_ =? 0); [discriminate|].
  intros [= <-]. unfold counted, size_t in *. cbn [_size _count]. lia.
Qed.

Lemma push_checked_counted G x s s' :
  counted s -> final (push G CheckBoundaryThrow x s) = Some s' -> counted s'.
Proof.
  intros [Hs Hc]. unfold size_t in Hs.
  destruct (Z.eq_dec (_count s) (_size s)) as [Hfull|Hnf].
  - rewrite push_checked_full by assumption. cbn [final].
    intros [= <-]. split; assumption.
  - rewrite push_not_full by assumption.
    destruct (store _ _ _); cbn [final]; [|discriminate].
    intros [= <-]. unfold counted, size_t. cbn [_size _count].
    rewrite wrap_small by lia. lia.
Qed.

Lemma pop_checked_counted s s' :
  counted s -> final (pop CheckBoundaryThrow s) = Some s' -> counted s'.
Proof.
  intros [Hs Hc]. unfold size_t in Hs.
  destruct (Z.eq_dec (_count s) 0) as [Hempty|Hne].
  - rewrite pop_checked_empty by assumption. cbn [final].
    intros [= <-]. split; assumption.
  - rewrite pop_not_empty, pop_unchecked by assumption.
    destruct (load _ _); cbn [final]; [|discriminate].
    destruct (store _ _ _); cbn [final]; [|discriminate].
    intros [= <-]. unfold counted, size_t. cbn [_size _count].
    rewrite wrap_small by lia. lia.
Qed.

Lemma clear_checked_counted fuel : forall s o s',
  counted s -> clear CheckBoundaryThrow fuel s = Some o ->
  final o = Some s' -> counted s'.
Proof.
  induction fuel as [|fuel IH]; intros s o s' Hs; cbn [clear];
    destruct (0 <? count s); try discriminate;
    try (intros [= <-]; cbn [final]; intros [= <-]; exact Hs).
  pose proof (pop_checked_counted s) as Hpop.
  destruct (pop CheckBoundaryThrow s) as [v s1|e1 s1|]; cbn [final] in Hpop.
  - apply IH. apply Hpop; [exact Hs|reflexivity].
  - intros [= <-]. cbn [final]. intros [= <-]. apply Hpop; [exact Hs|reflexivity].
  - intros [= <-]. discriminate.
Qed.

(** A call of [resize] that returns or throws leaves the object as it was
    or changes [_size] to the new size; the count is the same. *)
Lemma resize_final n s s' :
  final (resize n s) = Some s' ->
  s' = s \/ (_size s' = n /\ _count s' = _count s).
Proof.
  unfold resize. run_monad.
  destruct (_size s =? n); run_monad; cbn [final].
  { intros [= <-]. left. reflexivity. }
  destruct (_ =? 0); run_monad; cbn [final].
  { intros [= <-]. left. reflexivity. }
  destruct (copy_loop _ _ _ _ _); run_monad; cbn [final]; [|discriminate].
  destruct (copy_loop _ _ _ _ _); run_monad; cbn [final]; [|discriminate].
  intros [= <-]. right. split; reflexivity.
Qed.

Lemma resize_counted n s s' :
  counted s -> size_t n -> _count s <= n ->
  final (resize n s) = Some s' -> counted s'.
Proof.
  intros [Hs Hc] Hn Hle Hfin.
  destruct (resize_final n s s' Hfin) as [->|[Hsz Hcnt]].
  - split; assumption.
  - unfold counted. rewrite Hsz, Hcnt. split; [assumption|lia].
Qed.

(** The capacity invariant with [CheckBoundaryThrow], under every growth
    policy and whatever the runtime hands out: after the construction and
    any sequence of push, pop, clear and resize calls in which no resize
    asks for less than the current count, [0 <= count() <= size()]. *)
Theorem capacity_invariant_checked G s :
  reachable G CheckBoundaryThrow resize_keeps_count s -> capacity_invariant s.
Proof.
  intros Hreach. enough (counted s) as [_ H] by exact H.
  induction Hreach as [n s Hn Hcons | s o s' _ IH Hallowed Hstep].
  - eapply construct_counted; eassumption.
  - destruct Hstep as [x s s' Hf | s s' Hf | fuel r s s' Hcl Hf | n s s' Hn Hf].
    + eapply push_checked_counted; eassumption.
    + eapply pop_checked_counted; eassumption.
    + eapply clear_checked_counted; eassumption.
    + eapply resize_counted; eassumption.
Qed.

(** ** Growth on a push *)

(** C5, as the code has it.  With [GrowSingle], a push on a full buffer
    - without a boundary check makes [size()] one larger (when the larger
      block is obtained), and the pushed value comes out of the buffer after
      all the values pushed before it;
    - with [CheckBoundaryThrow] throws and leaves the object, hence
      [size()], as it was. *)
Theorem grow_single_full_push (x : T) s l :
  Rep s l -> _count s = _size s ->
  (_size s + 1 < 2 ^ (w - 1) ->
   get_temporary_buffer (_size s + 1) = _size s + 1 ->
   exists s1 s2,
     push GrowSingle NoBoundaryCheck x s = Done tt s1 /\
     size s1 = size s + 1 /\
     pops NoBoundaryCheck (length (l ++ [x])) s1
     = Done (map Some (l ++ [x])) s2) /\
  push GrowSingle CheckBoundaryThrow x s
  = Thrown (runtime_error "buffer full") s.
Proof.
  intros HR Hfull. split; [|apply push_checked_full; exact Hfull].
  intros Hn Hgrant.
  assert (Hpos : 0 < _size s) by (destruct HR as [[? _ _ _] _ _ _ _]; lia).
  assert (Hnew : newSize GrowSingle (_size s) = _size s + 1).
  { cbn [newSize]. apply wrap_small. pose proof pow_w_half. lia. }
  destruct (push_grow_Rep GrowSingle x s l HR Hfull) as (s1 & E1 & R1 & Z1);
    rewrite ?Hnew; try lia.
  rewrite <- (app_nil_r (l ++ [x])) in R1.
  destruct (pops_Rep NoBoundaryCheck (l ++ [x]) [] s1 R1) as (s2 & E2 & _).
  exists s1, s2. unfold size. rewrite Z1, Hnew. auto.
Qed.

(** C6, as the code has it.  [GrowDouble] maps every capacity [c] to
    [2 * c] modulo [2^w], and 0 to 0: no capacity is special-cased.  A push
    without a boundary check on a full buffer doubles [size()] (when the
    larger block is obtained) and keeps the queue.  No buffer has size 0:
    the constructor throws [bad_alloc] for it. *)
Theorem grow_double_policy :
  (forall c, newSize GrowDouble c = (c * 2) mod 2 ^ w) /\
  newSize GrowDouble 0 = 0 /\
  (forall (x : T) s l,
      Rep s l -> _count s = _size s ->
      2 * _size s < 2 ^ (w - 1) ->
      get_temporary_buffer (2 * _size s) = 2 * _size s ->
      exists s', push GrowDouble NoBoundaryCheck x s = Done tt s' /\
                 size s' = 2 * size s /\ Rep s' (l ++ [x])) /\
  ((forall n, n <= 0 -> get_temporary_buffer n = 0) ->
   construct 0 = inl bad_alloc).
Proof.
  split; [reflexivity|]. split; [apply (wrap_small 0); pose proof pow_w_big; lia|].
  split.
  - intros x s l HR Hfull Hn Hgrant.
    assert (Hpos : 0 < _size s) by (destruct HR as [[? _ _ _] _ _ _ _]; lia).
    assert (Hnew : newSize GrowDouble (_size s) = 2 * _size s).
    { cbn [newSize]. rewrite wrap_small by (pose proof pow_w_half; lia). lia. }
    destruct (push_grow_Rep GrowDouble x s l HR Hfull) as (s1 & E1 & R1 & Z1);
      rewrite ?Hnew; try lia.
    exists s1. unfold size. rewrite Z1, Hnew. auto.
  - intros Hstd. unfold construct.
    rewrite to_ptrdiff_small by (pose proof pow_w_half; pose proof pow_w_big; lia).
    rewrite Hstd by lia. reflexivity.
Qed.

(** ** Scenarios *)

Lemma Rep_count s l : Rep s l -> _count s = Z.of_nat (length l).
Proof. intros [_ H _ _ _]. exact H. Qed.

Lemma pow_half_big : 32768 <= 2 ^ (w - 1).
Proof. pose proof pow_w_big. pose proof pow_w_half. lia. Qed.

(** Capacity 2 with [GrowDouble] and [CheckBoundaryThrow]: the third push
    throws, the buffer is not resized, and the two values come out in
    order. *)
Lemma scenario_two_checked (a b c : T) :
  get_temporary_buffer 2 = 2 ->
  exists s0 s1 s2 s3 s4,
    construct 2 = inr s0 /\
    push GrowDouble CheckBoundaryThrow a s0 = Done tt s1 /\
    push GrowDouble CheckBoundaryThrow b s1 = Done tt s2 /\
    isFull s2 = true /\
    push GrowDouble CheckBoundaryThrow c s2
    = Thrown (runtime_error "buffer full") s2 /\
    size s2 = 2 /\ count s2 = 2 /\
    pop CheckBoundaryThrow s2 = Done (Some a) s3 /\
    pop CheckBoundaryThrow s3 = Done (Some b) s4 /\
    pop CheckBoundaryThrow s4 = Thrown (runtime_error "buffer empty") s4.
Proof.
  intros Hg2. pose proof pow_half_big as Hbig.
  destruct (construct_ok 2 ltac:(lia) Hg2) as [E0 He].
  pose proof (empty_buffer_Rep _ _ He) as R0.
  set (s0 := mkCircularBuffer 2 0 0 0 (fresh_block 2)) in *.
  destruct (push_Rep GrowDouble CheckBoundaryThrow a s0 [] R0)
    as (s1 & E1 & R1 & Z1); [cbn; lia|].
  pose proof (Rep_count _ _ R1) as C1. cbn [app length] in R1, C1.
  destruct (push_Rep GrowDouble CheckBoundaryThrow b s1 [a] R1)
    as (s2 & E2 & R2 & Z2); [rewrite Z1; cbn; lia|].
  pose proof (Rep_count _ _ R2) as C2. cbn [app length] in R2, C2.
  assert (Hfull : _count s2 = _size s2) by (rewrite Z2, Z1; cbn; lia).
  destruct (pop_Rep CheckBoundaryThrow a s2 [b] R2) as (s3 & E3 & R3 & Z3).
  destruct (pop_Rep CheckBoundaryThrow b s3 [] R3) as (s4 & E4 & R4 & Z4).
  pose proof (Rep_count _ _ R4) as C4. cbn [length] in C4.
  exists s0, s1, s2, s3, s4.
  repeat match goal with |- _ /\ _ => split end; try assumption.
  - unfold isFull. apply Z.eqb_eq. exact Hfull.
  - apply push_checked_full. exact Hfull.
  - unfold size. rewrite Z2, Z1. reflexivity.
  - apply pop_checked_empty. exact C4.
Qed.

(** The same calls without a boundary check: the third push doubles the
    capacity, the three values come out in order, and a fourth pop returns
    instead of throwing. *)
Lemma scenario_two_unchecked (a b c : T) :
  get_temporary_buffer 2 = 2 -> get_temporary_buffer 4 = 4 ->
  exists s0 s1 s2 s3 s4 s5 s6 s7 v,
    construct 2 = inr s0 /\
    push GrowDouble NoBoundaryCheck a s0 = Done tt s1 /\
    push GrowDouble NoBoundaryCheck b s1 = Done tt s2 /\
    isFull s2 = true /\
    push GrowDouble NoBoundaryCheck c s2 = Done tt s3 /\
    size s3 = 4 /\ count s3 = 3 /\ isFull s3 = false /\
    pop NoBoundaryCheck s3 = Done (Some a) s4 /\
    pop NoBoundaryCheck s4 = Done (Some b) s5 /\
    pop NoBoundaryCheck s5 = Done (Some c) s6 /\
    pop NoBoundaryCheck s6 = Done v s7.
Proof.
  intros Hg2 Hg4. pose proof pow_half_big as Hbig.
  destruct (construct_ok 2 ltac:(lia) Hg2) as [E0 He].
  pose proof (empty_buffer_Rep _ _ He) as R0.
  set (s0 := mkCircularBuffer 2 0 0 0 (fresh_block 2)) in *.
  destruct (push_Rep GrowDouble NoBoundaryCheck a s0 [] R0)
    as (s1 & E1 & R1 & Z1); [cbn; lia|].
  pose proof (Rep_count _ _ R1) as C1. cbn [app length] in R1, C1.
  destruct (push_Rep GrowDouble NoBoundaryCheck b s1 [a] R1)
    as (s2 & E2 & R2 & Z2); [rewrite Z1; cbn; lia|].
  pose proof (Rep_count _ _ R2) as C2. cbn [app length] in R2, C2.
  assert (Hsz2 : _size s2 = 2) by (rewrite Z2, Z1; reflexivity).
  assert (Hfull : _count s2 = _size s2) by lia.
  assert (Hnew : newSize GrowDouble (_size s2) = 4).
  { rewrite Hsz2. cbn [newSize]. apply wrap_small. pose proof pow_w_big. lia. }
  destruct (push_grow_Rep GrowDouble c s2 [a; b] R2 Hfull)
    as (s3 & E3 & R3 & Z3); rewrite ?Hnew; try lia.
  pose proof (Rep_count _ _ R3) as C3. cbn [app length] in R3, C3.
  destruct (pop_Rep NoBoundaryCheck a s3 [b; c] R3) as (s4 & E4 & R4 & Z4).
  destruct (pop_Rep NoBoundaryCheck b s4 [c] R4) as (s5 & E5 & R5 & Z5).
  destruct (pop_Rep NoBoundaryCheck c s5 [] R5) as (s6 & E6 & R6 & Z6).
  assert (Hb6 : in_bounds s6) by (destruct R6; assumption).
  destruct Hb6 as [Hsz6 Hblk6 Hhd6 Htl6].
  assert (E7 : exists v s7, pop NoBoundaryCheck s6 = Done v s7).
  { rewrite pop_unchecked, load_in, store_in by lia.
    destruct (lookup_lt_is_Some_2 (_elements s6) (Z.to_nat (_nextPopPos s6)))
      as [v Hv]; [lia|].
    rewrite Hv. eauto. }
  destruct E7 as (v & s7 & E7).
  exists s0, s1, s2, s3, s4, s5, s6, s7, v.
  repeat match goal with |- _ /\ _ => split end; try assumption.
  - unfold isFull. apply Z.eqb_eq. exact Hfull.
  - unfold size. lia.
  - unfold isFull. apply Z.eqb_neq. lia.
Qed.

(** Capacity 3: push A, B, C, pop (A), push D, then [resize(5)]: the next
    pops return B, C, D. *)
Lemma scenario_resize_wrapped G C (a b c d : T) :
  get_temporary_buffer 3 = 3 -> get_temporary_buffer 5 = 5 ->
  exists s0 s1 s2 s3 s4 s5,
    construct 3 = inr s0 /\
    pushes G C [a; b; c] s0 = Done tt s1 /\
    pop C s1 = Done (Some a) s2 /\
    push G C d s2 = Done tt s3 /\
    isFull s3 = true /\
    resize 5 s3 = Done tt s4 /\
    size s4 = 5 /\ count s4 = 3 /\
    pops C 3 s4 = Done [Some b; Some c; Some d] s5.
Proof.
  intros Hg3 Hg5. pose proof pow_half_big as Hbig.
  destruct (construct_ok 3 ltac:(lia) Hg3) as [E0 He].
  pose proof (empty_buffer_Rep _ _ He) as R0.
  set (s0 := mkCircularBuffer 3 0 0 0 (fresh_block 3)) in *.
  destruct (pushes_Rep G C [a; b; c] s0 [] R0) as (s1 & E1 & R1 & Z1);
    [cbn; lia|].
  cbn [app] in R1.
  destruct (pop_Rep C a s1 [b; c] R1) as (s2 & E2 & R2 & Z2).
  pose proof (Rep_count _ _ R2) as C2. cbn [length] in C2.
  destruct (push_Rep G C d s2 [b; c] R2) as (s3 & E3 & R3 & Z3);
    [rewrite Z2, Z1; cbn; lia|].
  pose proof (Rep_count _ _ R3) as C3. cbn [app length] in R3, C3.
  assert (Hsz3 : _size s3 = 3) by (rewrite Z3, Z2, Z1; reflexivity).
  pose proof (full_cursors s3 _ R3 ltac:(lia)) as Hcur.
  destruct (resize_Rep s3 _ 5 R3) as (s4 & E4 & R4 & Z4); try lia.
  pose proof (Rep_count _ _ R4) as C4. cbn [length] in C4.
  rewrite <- (app_nil_r [b; c; d]) in R4.
  destruct (pops_Rep C [b; c; d] [] s4 R4) as (s5 & E5 & _).
  exists s0, s1, s2, s3, s4, s5.
  repeat match goal with |- _ /\ _ => split end; try assumption.
  unfold isFull. apply Z.eqb_eq. lia.
Qed.

(** ** The constructor *)

Lemma to_ptrdiff_positive n :
  size_t n -> 0 < to_ptrdiff n -> 0 < n < 2 ^ (w - 1) /\ to_ptrdiff n = n.
Proof.
  intros Hn. unfold to_ptrdiff, size_t in *.
  destruct (Z.ltb_spec n (2 ^ (w - 1))); lia.
Qed.

Lemma fresh_Tidy c :
  0 < c < 2 ^ (w - 1) -> Tidy (mkCircularBuffer c 0 0 0 (fresh_block c)) [].
Proof.
  intros Hc. split.
  - apply Rep_empty; [|reflexivity|reflexivity].
    constructor; cbn [_size _count _nextPushPos _nextPopPos _elements];
      try lia. apply length_fresh_block. lia.
  - intros k _ Hk. cbn [_elements _nextPopPos _size] in *.
    apply lookup_fresh_block.
    pose proof (Z.mod_pos_bound (0 + Z.of_nat k) c). lia.
Qed.

(** X1. The constructor throws [bad_alloc] or leaves an empty buffer of the
    requested size with both cursors at slot 0 and a block of that many
    fresh slots; it throws for size 0, the default argument, and for every
    size that is not a positive [ptrdiff_t]. *)
Theorem construct_spec c :
  all_or_nothing -> size_t c ->
  (construct c = inl bad_alloc \/
   construct c = inr (mkCircularBuffer c 0 0 0 (fresh_block c)) /\
   0 < c < 2 ^ (w - 1) /\
   Tidy (mkCircularBuffer c 0 0 0 (fresh_block c)) []) /\
  (c = 0 \/ 2 ^ (w - 1) <= c -> construct c = inl bad_alloc).
Proof.
  intros Hall Hc. unfold construct.
  destruct (Hall (to_ptrdiff c)) as [H0|[Hpos Hfull]].
  - rewrite H0. cbn. split; [left; reflexivity | reflexivity].
  - destruct (to_ptrdiff_positive c Hc Hpos) as [Hrange Heq].
    rewrite Hfull, Heq.
    destruct (Z.eqb_spec c 0) as [?|_]; [lia|]. split; [|lia].
    right. split; [reflexivity|]. split; [exact Hrange|].
    apply fresh_Tidy. exact Hrange.
Qed.

(** ** Failure of [resize] *)

Lemma resize_same s : resize (_size s) s = Done tt s.
Proof. unfold resize. run_monad. rewrite Z.eqb_refl. reflexivity. Qed.

Lemma resize_no_block n s :
  _size s <> n -> get_temporary_buffer (to_ptrdiff n) = 0 ->
  resize n s = Thrown bad_alloc s.
Proof.
  intros Hne H0. apply Z.eqb_neq in Hne.
  unfold resize. run_monad. rewrite Hne, H0. reflexivity.
Qed.

(** X2. [resize] with the current size returns at once, whatever the runtime
    would hand out.  When [resize] throws, it throws [bad_alloc] and the
    object is as it was before the call; it does so whenever the size
    changes and no block is obtained. *)
Theorem resize_throws_unchanged n s :
  (n = _size s -> resize n s = Done tt s) /\
  (forall e s', resize n s = Thrown e s' -> e = bad_alloc /\ s' = s) /\
  (_size s <> n -> get_temporary_buffer (to_ptrdiff n) = 0 ->
   resize n s = Thrown bad_alloc s).
Proof.
  split; [intros ->; apply resize_same|]. split; [|apply resize_no_block].
  unfold resize. run_monad.
  intros e s'. destruct (_size s =? n); run_monad; [discriminate|].
  destruct (_ =? 0); run_monad; [intros [= <- <-]; auto|].
  destruct (copy_loop _ _ _ _ _); run_monad; [|discriminate].
  destruct (copy_loop _ _ _ _ _); run_monad; discriminate.
Qed.

(** ** A push on a full buffer without a boundary check *)

Lemma push_unchecked_full_eq G x s :
  _count s = _size s ->
  push G NoBoundaryCheck x s =
    match resize (newSize G (_size s)) s with
    | Done _ s1 =>
        match store (_elements s1) (_nextPushPos s1) (Some x) with
        | Some elems =>
            Done tt (mkCircularBuffer (_size s1) (wrap (_count s1 + 1))
                       (advance s1 (_nextPushPos s1)) (_nextPopPos s1) elems)
        | None => Undefined
        end
    | Thrown e s' => Thrown e s'
    | Undefined => Undefined
    end.
Proof.
  intros Hfull. unfold push, checkFull, isFull. run_monad.
  rewrite (proj2 (Z.eqb_eq _ _) Hfull).
  destruct (resize _ s) as [[] s1|e s1|]; run_monad; try reflexivity.
  destruct (store (_elements s1) (_nextPushPos s1) (Some x)); reflexivity.
Qed.

(** X8. With a growth policy that asks for a larger block, a push on a full
    buffer without a boundary check throws [bad_alloc] when the block is not
    obtained, and the buffer is as it was: the value is not stored. *)
Theorem push_growth_failure_unchanged G x s :
  _count s = _size s ->
  newSize G (_size s) <> _size s ->
  get_temporary_buffer (to_ptrdiff (newSize G (_size s))) = 0 ->
  push G NoBoundaryCheck x s = Thrown bad_alloc s.
Proof.
  intros Hfull Hne H0. rewrite push_unchecked_full_eq by assumption.
  rewrite resize_no_block by auto. reflexivity.
Qed.

(** X7. With the default policies ([NoGrow], [NoBoundaryCheck]) a push on a full
    buffer returns: the value is written over the oldest element, [size()]
    is the same and [count()] is one more than it; the next pop returns the
    value just pushed, and the oldest element never comes out. *)
Theorem push_default_overwrites_oldest (x x0 : T) l s :
  Rep s (x0 :: l) -> _count s = _size s ->
  exists s' s'',
    push NoGrow NoBoundaryCheck x s = Done tt s' /\
    size s' = size s /\ count s' = size s + 1 /\
    _nextPopPos s' = _nextPopPos s /\
    at_index s (_nextPopPos s) = Some (Some x0) /\
    at_index s' (_nextPopPos s) = Some (Some x) /\
    pop NoBoundaryCheck s' = Done (Some x) s''.
Proof.
  intros HR Hfull. pose proof (full_cursors s _ HR Hfull) as Hcur.
  pose proof HR as [[Hsz Hblk Hhd Htl] Hcnt Hle Htail Hlive].
  pose proof pow_w_half as Hhalf.
  rewrite push_unchecked_full_eq by assumption.
  cbn [newSize]. rewrite resize_same. rewrite store_in by lia.
  eexists _, _. split; [reflexivity|].
  unfold size, count, at_index. cbn [_size _count _nextPopPos _elements].
  rewrite wrap_small by lia.
  rewrite !load_in by (rewrite ?length_insert; lia).
  rewrite Hcur, list_lookup_insert_eq by lia.
  pose proof (Hlive 0%nat x0 eq_refl) as H0.
  rewrite Z.add_0_r, Z.mod_small in H0 by lia.
  repeat match goal with |- _ /\ _ => split end;
    try reflexivity; try lia; try exact H0.
  rewrite pop_unchecked. cbn [_size _count _nextPushPos _nextPopPos _elements].
  rewrite load_in, store_in by (rewrite length_insert; lia).
  rewrite list_lookup_insert_eq by lia. reflexivity.
Qed.

(** ** The cursors never leave the block *)

Lemma wrap_size_t x : size_t (wrap x).
Proof.
  unfold size_t, wrap. apply Z.mod_pos_bound. pose proof pow_w_big. lia.
Qed.

Lemma construct_safe n s :
  all_or_nothing -> size_t n -> construct n = inr s -> safe s.
Proof.
  intros Hall Hn. unfold construct.
  destruct (Hall (to_ptrdiff n)) as [H0|[Hpos Hfull]].
  - rewrite H0. discriminate.
  - destruct (to_ptrdiff_positive n Hn Hpos) as [Hrange Heq].
    rewrite Hfull, Heq. destruct (n =? 0); [discriminate|].
    intros [= <-]. split.
    + constructor; cbn [_size _count _nextPushPos _nextPopPos _elements];
        try lia. apply length_fresh_block. lia.
    + unfold size_t. cbn [_count]. pose proof pow_w_big. lia.
Qed.

Lemma pop_unchecked_in_bounds s :
  in_bounds s ->
  exists v s', pop NoBoundaryCheck s = Done v s' /\ in_bounds s' /\
               _count s' = wrap (_count s - 1).
Proof.
  intros [Hsz Hblk Hhd Htl]. pose proof pow_w_half as Hhalf.
  rewrite pop_unchecked, load_in, store_in by lia.
  destruct (lookup_lt_is_Some_2 (_elements s) (Z.to_nat (_nextPopPos s)))
    as [v Hv]; [lia|].
  rewrite Hv. eexists _, _. split; [reflexivity|]. split; [|reflexivity].
  constructor; cbn [_size _count _nextPushPos _nextPopPos _elements];
    try assumption.
  - rewrite length_insert. assumption.
  - apply advance_range; lia.
Qed.

Lemma pop_safe C s :
  safe s -> exists s', final (pop C s) = Some s' /\ safe s'.
Proof.
  intros [Hb Hc].
  destruct (pop_unchecked_in_bounds s Hb) as (v & s' & E & Hb' & Hc').
  assert (Hun : exists s', final (pop NoBoundaryCheck s) = Some s' /\ safe s').
  { exists s'. rewrite E. split; [reflexivity|]. split; [exact Hb'|].
    rewrite Hc'. apply wrap_size_t. }
  destruct C; [exact Hun|].
  destruct (Z.eq_dec (_count s) 0) as [H0|Hne].
  - rewrite pop_checked_empty by assumption. exists s. split; [reflexivity|].
    split; assumption.
  - rewrite pop_not_empty by assumption. exact Hun.
Qed.

Lemma store_push_safe s x :
  in_bounds s ->
  exists elems,
    store (_elements s) (_nextPushPos s) (Some x) = Some elems /\
    safe (mkCircularBuffer (_size s) (wrap (_count s + 1))
            (advance s (_nextPushPos s)) (_nextPopPos s) elems).
Proof.
  intros [Hsz Hblk Hhd Htl]. pose proof pow_w_half as Hhalf.
  rewrite store_in by lia. eexists. split; [reflexivity|].
  split; [|apply wrap_size_t].
  constructor; cbn [_size _count _nextPushPos _nextPopPos _elements];
    try assumption.
  - rewrite length_insert. assumption.
  - apply advance_range; lia.
Qed.

Lemma resize_safe n s :
  all_or_nothing -> safe s -> size_t n -> _size s <= n ->
  exists s', final (resize n s) = Some s' /\ safe s' /\
             (s' = s \/ _size s < _size s').
Proof.
  intros Hall [Hb Hc] Hn Hle.
  destruct (Z.eq_dec n (_size s)) as [->|Hne].
  { rewrite resize_same. exists s. split; [reflexivity|].
    split; [split; assumption | left; reflexivity]. }
  destruct (Hall (to_ptrdiff n)) as [H0|[Hpos Hfull]].
  { rewrite resize_no_block by auto. exists s. split; [reflexivity|].
    split; [split; assumption | left; reflexivity]. }
  destruct (to_ptrdiff_positive n Hn Hpos) as [Hrange Heq].
  rewrite Heq in Hfull.
  destruct (resize_grow s n Hb ltac:(lia) Hfull) as (elems & E & L & _).
  pose proof Hb as [Hsz Hblk Hhd Htl].
  rewrite E. eexists. split; [reflexivity|]. split.
  - split; [|exact Hc].
    constructor; cbn [_size _count _nextPushPos _nextPopPos _elements]; lia.
  - right. cbn [_size]. lia.
Qed.

Lemma push_safe G C x s :
  all_or_nothing -> safe s ->
  exists s', final (push G C x s) = Some s' /\ safe s'.
Proof.
  intros Hall Hs. pose proof Hs as [Hb Hc].
  pose proof Hb as [Hsz Hblk Hhd Htl]. pose proof pow_w_half as Hhalf.
  destruct (Z.eq_dec (_count s) (_size s)) as [Hfull|Hnf].
  - destruct C.
    + rewrite push_unchecked_full_eq by assumption.
      assert (Hnew : size_t (newSize G (_size s)) /\
                     _size s <= newSize G (_size s)).
      { unfold size_t. destruct G; cbn [newSize];
          rewrite ?wrap_small by lia; lia. }
      destruct Hnew as [Hn Hle].
      destruct (resize_safe _ s Hall Hs Hn Hle) as (s1 & E1 & Hs1 & _).
      destruct (resize _ s) as [[] s1'|e s1'|]; cbn [final] in E1;
        [|exists s1; split; [exact E1 | exact Hs1]|discriminate].
      injection E1 as ->. destruct Hs1 as [Hb1 _].
      destruct (store_push_safe s1 x Hb1) as (elems & Est & Hsafe).
      rewrite Est. eexists. split; [reflexivity | exact Hsafe].
    + rewrite push_checked_full by assumption. exists s. split; [reflexivity|].
      exact Hs.
  - rewrite push_not_full by assumption.
    destruct (store_push_safe s x Hb) as (elems & Est & Hsafe).
    rewrite Est. eexists. split; [reflexivity | exact Hsafe].
Qed.

Lemma clear_safe C fuel : forall s o,
  safe s -> clear C fuel s = Some o ->
  exists s', final o = Some s' /\ safe s'.
Proof.
  induction fuel as [|fuel IH]; intros s o Hs; cbn [clear];
    destruct (0 <? count s); try discriminate;
    try (intros [= <-]; exists s; split; [reflexivity | exact Hs]).
  destruct (pop_safe C s Hs) as (s1 & E1 & Hs1).
  destruct (pop C s) as [v s1'|e s1'|]; cbn [final] in E1;
    [|intros [= <-]; exists s1; split; assumption|discriminate].
  injection E1 as ->. apply IH. exact Hs1.
Qed.

Lemma reachable_safe G C s :
  all_or_nothing -> reachable G C resize_grows s -> safe s.
Proof.
  intros Hall Hreach.
  induction Hreach as [n s Hn Hcons | s o s' _ IH Hallowed Hstep].
  - eapply construct_safe; eassumption.
  - destruct Hstep as [x s s' Hf | s s' Hf | fuel r s s' Hcl Hf | n s s' Hn Hf].
    + destruct (push_safe G C x s Hall IH) as (s1 & E1 & Hs1). congruence.
    + destruct (pop_safe C s IH) as (s1 & E1 & Hs1). congruence.
    + destruct (clear_safe C fuel s r IH Hcl) as (s1 & E1 & Hs1). congruence.
    + destruct (resize_safe n s Hall IH Hn Hallowed) as (s1 & E1 & Hs1 & _).
      congruence.
Qed.


(** ** The buffer as a bounded queue *)

Lemma push_Tidy G C x s l :
  Tidy s l -> _count s < _size s ->
  exists s', push G C x s = Done tt s' /\ Tidy s' (l ++ [x]) /\
             _size s' = _size s.
Proof.
  intros [HR Hdead] Hlt.
  destruct (push_Rep G C x s l HR Hlt) as (s' & E & R' & Z').
  exists s'. split; [exact E|]. split; [|exact Z']. split; [exact R'|].
  destruct HR as [[Hsz Hblk Hhd Htl] Hcnt Hle Htail Hlive].
  rewrite push_not_full, store_in in E by lia. injection E as <-.
  cbn [_size _count _nextPushPos _nextPopPos _elements].
  intros k Hk Hkn. rewrite length_app in Hk. cbn [length] in Hk.
  specialize (Hdead k ltac:(lia) Hkn).
  destruct (mod_once (_size s) (_nextPopPos s + _count s)) as [[? Hm]|[? Hm]];
    [lia|lia| |];
    (destruct (mod_once (_size s) (_nextPopPos s + Z.of_nat k))
      as [[? Hk']|[? Hk']]; [lia|lia| |]);
    rewrite Hk' in Hdead |- *;
    rewrite list_lookup_insert_ne by lia; exact Hdead.
Qed.

Lemma pop_Tidy C x s l :
  Tidy s (x :: l) ->
  exists s', pop C s = Done (Some x) s' /\ Tidy s' l /\ _size s' = _size s.
Proof.
  intros [HR Hdead].
  destruct (pop_Rep C x s l HR) as (s' & E & R' & Z').
  exists s'. split; [exact E|]. split; [|exact Z']. split; [exact R'|].
  destruct HR as [[Hsz Hblk Hhd Htl] Hcnt Hle Htail Hlive].
  cbn [length] in Hcnt, Hdead.
  pose proof (Hlive 0%nat x eq_refl) as H0.
  rewrite Z.add_0_r, Z.mod_small in H0 by lia.
  pose proof pow_w_half as Hhalf.
  rewrite pop_not_empty, pop_unchecked, load_in, store_in, H0 in E by lia.
  injection E as <-.
  cbn [_size _count _nextPushPos _nextPopPos _elements].
  intros k Hk Hkn. rewrite advance_mod by lia.
  rewrite Z.add_mod_idemp_l by lia.
  replace (_nextPopPos s + 1 + Z.of_nat k)
    with (_nextPopPos s + Z.of_nat (S k)) by lia.
  destruct (Z.eq_dec (Z.of_nat (S k)) (_size s)) as [Hlast|Hne].
  - rewrite Hlast.
    replace (_nextPopPos s + _size s) with (_nextPopPos s + 1 * _size s) by lia.
    rewrite Z.mod_add, Z.mod_small by lia.
    apply list_lookup_insert_eq. lia.
  - specialize (Hdead (S k) ltac:(lia) ltac:(lia)).
    destruct (mod_once (_size s) (_nextPopPos s + Z.of_nat (S k)))
      as [[? Hm]|[? Hm]]; [lia|lia| |];
      rewrite Hm in Hdead |- *;
      rewrite list_lookup_insert_ne by lia; exact Hdead.
Qed.

Lemma clear_Tidy C l : forall s fuel,
  Tidy s l -> (length l <= fuel)%nat ->
  exists s', clear C fuel s = Some (Done tt s') /\ Tidy s' [] /\
             _size s' = _size s.
Proof.
  induction l as [|x l IH]; intros s fuel HT Hfuel.
  - exists s. split; [|split; [exact HT|reflexivity]].
    apply clear_empty. destruct HT as [HR _]. apply (Rep_count _ _ HR).
  - destruct fuel as [|fuel]; [cbn [length] in Hfuel; lia|].
    destruct (pop_Tidy C x s l HT) as (s1 & E1 & T1 & Z1).
    destruct (IH s1 fuel T1) as (s' & E' & T' & Z');
      [cbn [length] in Hfuel; lia|].
    exists s'. split; [|split; [exact T'|lia]].
    cbn [clear]. unfold count.
    destruct HT as [HR _]. rewrite (Rep_count _ _ HR). cbn [length].
    destruct (Z.ltb_spec 0 (Z.of_nat (S (length l)))); [|lia].
    rewrite E1. exact E'.
Qed.

(** In a tidy empty buffer the whole block is uninitialized again. *)
Lemma Tidy_nil_block s :
  Tidy s [] -> _elements s = fresh_block (_size s).
Proof.
  intros [[[Hsz Hblk Hhd Htl] _ _ _ _] Hdead]. cbn [length] in Hdead.
  apply list_eq. intros i.
  destruct (Z_lt_ge_dec (Z.of_nat i) (_size s)) as [Hlt|Hge].
  - rewrite lookup_fresh_block by lia.
    set (k := (Z.of_nat i - _nextPopPos s) mod _size s).
    assert (Hk : 0 <= k < _size s) by (apply Z.mod_pos_bound; lia).
    specialize (Hdead (Z.to_nat k) ltac:(lia) ltac:(lia)).
    rewrite Z2Nat.id in Hdead by lia.
    replace ((_nextPopPos s + k) mod _size s) with (Z.of_nat i) in Hdead.
    + rewrite Nat2Z.id in Hdead. exact Hdead.
    + unfold k. rewrite Z.add_mod_idemp_r by lia.
      replace (_nextPopPos s + (Z.of_nat i - _nextPopPos s))
        with (Z.of_nat i) by lia.
      symmetry. apply Z.mod_small. lia.
  - rewrite !lookup_ge_None_2; [reflexivity| |].
    + unfold fresh_block. rewrite length_replicate. lia.
    + lia.
Qed.

Lemma call_refines G o s l :
  Tidy s l -> keeps_capacity o ->
  exists s',
    call G CheckBoundaryThrow o s = Some (fst (queue_call (_size s) o l), s') /\
    Tidy s' (snd (queue_call (_size s) o l)) /\ _size s' = _size s.
Proof.
  intros HT Hk. pose proof HT as [HR _].
  pose proof (Rep_count _ _ HR) as Hcnt.
  destruct o as [x| | |n]; cbn [call queue_call]; [| | |destruct Hk].
  - destruct (Z.eqb_spec (Z.of_nat (length l)) (_size s)) as [Hfull|Hnf];
      cbn [fst snd].
    + rewrite push_checked_full by lia. exists s. auto.
    + destruct (push_Tidy G CheckBoundaryThrow x s l HT) as (s' & E & T' & Z').
      { destruct HR as [_ _ Hle _ _]. lia. }
      exists s'. rewrite E. auto.
  - destruct l as [|v l]; cbn [fst snd].
    + rewrite pop_checked_empty by exact Hcnt. exists s. auto.
    + destruct (pop_Tidy CheckBoundaryThrow v s l HT) as (s' & E & T' & Z').
      exists s'. rewrite E. auto.
  - destruct (clear_Tidy CheckBoundaryThrow l s (Z.to_nat (_count s)) HT)
      as (s' & E & T' & Z'); [lia|].
    exists s'. rewrite E. auto.
Qed.

(** X11. With [CheckBoundaryThrow], under every growth policy, the buffer is a
    FIFO queue of at most [size()] values: on any sequence of push, pop and
    clear calls it gives the responses of the reference queue (a push on a
    full queue and a pop on an empty one throw and change nothing, a pop
    returns the oldest value), the values it holds are those of the reference
    queue, no other slot holds an object, and [size()] never changes. *)
Theorem checked_buffer_is_bounded_queue G os : forall s l,
  Tidy s l -> Forall keeps_capacity os ->
  exists s',
    calls G CheckBoundaryThrow os s
    = Some (fst (queue_calls (_size s) os l), s') /\
    Tidy s' (snd (queue_calls (_size s) os l)) /\ _size s' = _size s.
Proof.
  induction os as [|o os IH]; intros s l HT Hos; cbn [calls queue_calls].
  - exists s. auto.
  - inversion Hos as [|? ? Ho Hos']; subst.
    destruct (call_refines G o s l HT Ho) as (s1 & E1 & T1 & Z1).
    destruct (IH s1 _ T1 Hos') as (s2 & E2 & T2 & Z2).
    rewrite Z1 in E2, T2. rewrite E1, E2.
    destruct (queue_call (_size s) o l) as [r l1]. cbn [fst snd] in *.
    destruct (queue_calls (_size s) os l1) as [rs l2]. cbn [fst snd] in *.
    exists s2. split; [reflexivity|]. split; [exact T2|lia].
Qed.

(** X12. The destructor of a tidy buffer returns without throwing, and in the
    block it releases every element has been destroyed: no slot holds a
    constructed object.  [clear] leaves the same block in the buffer. *)
Theorem destructor_destroys_all C s l :
  Tidy s l ->
  (exists s',
     clear C (length l) s = Some (Done tt s') /\
     count s' = 0 /\ _elements s' = fresh_block (_size s)) /\
  (exists s'',
     destructor C (length l) s = Some (Done (fresh_block (_size s)) s'')).
Proof.
  intros HT.
  destruct (clear_Tidy C l s (length l) HT) as (s' & E & T' & Z'); [lia|].
  pose proof (Tidy_nil_block s' T') as Hblock. rewrite Z' in Hblock.
  split.
  - exists s'. split; [exact E|]. split; [|exact Hblock].
    destruct T' as [R' _]. apply (Rep_count _ _ R').
  - unfold destructor. rewrite E, Hblock. eexists. reflexivity.
Qed.

(** ** More on [resize] *)

(** X3. A growing [resize] (the larger block being obtained) on any buffer in
    bounds returns with the new size, the same count and push cursor, the
    pop cursor moved up by [newSize - size]; the slots below the push cursor
    keep their index, the slots from the push cursor on move up by
    [newSize - size], and the slots in between are fresh. *)
Theorem resize_migration_layout s n :
  in_bounds s -> _size s < n < 2 ^ (w - 1) -> get_temporary_buffer n = n ->
  exists s',
    resize n s = Done tt s' /\
    size s' = n /\ count s' = count s /\
    _nextPushPos s' = _nextPushPos s /\
    _nextPopPos s' = _nextPopPos s + (n - _size s) /\
    Z.of_nat (length (_elements s')) = n /\
    (forall j, 0 <= j < _nextPushPos s -> at_index s' j = at_index s j) /\
    (forall j, _nextPushPos s <= j < _size s ->
               at_index s' (j + (n - _size s)) = at_index s j) /\
    (forall j, _nextPushPos s <= j < _nextPushPos s + (n - _size s) ->
               at_index s' j = Some None).
Proof.
  intros Hb Hn Hgrant.
  destruct (resize_grow s n Hb Hn Hgrant) as (elems & E & L & Hlow & Hhigh & Hnew).
  destruct Hb as [Hsz Hblk Hhd Htl].
  eexists. split; [exact E|].
  unfold size, count, at_index.
  cbn [_size _count _nextPushPos _nextPopPos _elements].
  repeat match goal with |- _ /\ _ => split end; try reflexivity; try exact L.
  - intros j Hj. rewrite !load_in by lia. apply Hlow. exact Hj.
  - intros j Hj. rewrite !load_in by lia. apply Hhigh. exact Hj.
  - intros j Hj. rewrite load_in by lia. apply Hnew. exact Hj.
Qed.

(** X4. A growing [resize] keeps the queue, values and order, when the buffer
    is full or its live elements reach the end of the block (the count is
    positive and the push cursor is not above the pop cursor): the pops
    that follow return the same values as before. *)
Theorem resize_wrapped_keeps_queue C s l n :
  Rep s l -> 0 < _count s -> _nextPushPos s <= _nextPopPos s ->
  _size s < n < 2 ^ (w - 1) -> get_temporary_buffer n = n ->
  exists s1 s2,
    resize n s = Done tt s1 /\ size s1 = n /\ Rep s1 l /\
    pops C (length l) s1 = Done (map Some l) s2.
Proof.
  intros HR Hpos Hwrapped Hn Hgrant.
  destruct (resize_Rep s l n HR Hpos Hwrapped Hn Hgrant) as (s1 & E1 & R1 & Z1).
  pose proof R1 as R1'. rewrite <- (app_nil_r l) in R1'.
  destruct (pops_Rep C l [] s1 R1') as (s2 & E2 & _).
  exists s1, s2. auto.
Qed.

(** X5. A growing [resize] on a buffer whose live elements lie below the push
    cursor (the pop cursor is below the push cursor) loses the head of the
    queue: the next pop returns the element [newSize - size] places behind
    the oldest one, or an indeterminate value when there is none. *)
Theorem resize_unwrapped_skips C s l n :
  Rep s l -> _nextPopPos s < _nextPushPos s ->
  _size s < n < 2 ^ (w - 1) -> get_temporary_buffer n = n ->
  exists s1 s2,
    resize n s = Done tt s1 /\
    pop C s1 = Done (l !! Z.to_nat (n - _size s)) s2.
Proof.
  intros [Hb Hcnt Hle Htail Hlive] Hunwrapped Hn Hgrant.
  destruct (resize_grow s n Hb Hn Hgrant) as (elems & E & L & Hlow & _ & Hnew).
  destruct Hb as [Hsz Hblk Hhd Htl]. pose proof pow_w_half as Hhalf.
  assert (Htl' : _nextPushPos s = _nextPopPos s + _count s).
  { destruct (mod_once (_size s) (_nextPopPos s + _count s))
      as [[? Hm]|[? Hm]]; lia. }
  eexists _, _. split; [exact E|].
  rewrite pop_not_empty, pop_unchecked by (cbn [_count]; lia).
  cbn [_size _count _nextPushPos _nextPopPos _elements].
  rewrite load_in, store_in by lia.
  assert (Hread : elems !! Z.to_nat (_nextPopPos s + (n - _size s))
                  = Some (l !! Z.to_nat (n - _size s))).
  { destruct (Z_lt_ge_dec (n - _size s) (_count s)) as [Hin|Hout].
    - destruct (lookup_lt_is_Some_2 l (Z.to_nat (n - _size s))) as [v Hv];
        [lia|].
      rewrite Hv, Hlow by lia.
      specialize (Hlive _ v Hv).
      rewrite Z2Nat.id, Z.mod_small in Hlive by lia. exact Hlive.
    - rewrite Hnew by lia. rewrite lookup_ge_None_2 by lia. reflexivity. }
  rewrite Hread. reflexivity.
Qed.

Lemma wrap_negative x : - 2 ^ w <= x < 0 -> wrap x = x + 2 ^ w.
Proof.
  intros Hx. unfold wrap.
  replace x with (x + 2 ^ w + (-1) * 2 ^ w) at 1 by lia.
  rewrite Z.mod_add by lia. apply Z.mod_small. lia.
Qed.

Lemma copy_loop_out dest (src : list (option T)) n : forall i (dst : list (option T)),
  (exists j, i <= j < i + Z.of_nat n /\
             ~ (0 <= dest j < Z.of_nat (length dst))) ->
  copy_loop dest src n i dst = None.
Proof.
  induction n as [|n IH]; intros i dst (j & Hj & Hout); cbn [copy_loop];
    [lia|].
  destruct (load src i); [|reflexivity].
  unfold store, in_block.
  destruct (Z.leb_spec 0 (dest i)), (Z.ltb_spec (dest i) (Z.of_nat (length dst)));
    cbn [andb]; try reflexivity.
  apply IH. exists j. rewrite length_insert. split; [|exact Hout].
  destruct (Z.eq_dec j i) as [->|]; lia.
Qed.

(** X6. A shrinking [resize] (the smaller block being obtained) writes outside
    of the new block, so that it has no defined behaviour, whenever the push
    cursor lies above the new size or less than [size - newSize] slots from
    the start of the block. *)
Theorem resize_shrink_undefined s n :
  in_bounds s -> 0 < n < _size s -> get_temporary_buffer n = n ->
  n < _nextPushPos s \/ _nextPushPos s + n < _size s ->
  resize n s = Undefined.
Proof.
  intros [Hsz Hblk Hhd Htl] Hn Hgrant Hcase.
  pose proof pow_w_half as Hhalf. pose proof pow_w_big as Hbig.
  unfold resize. run_monad.
  destruct (Z.eqb_spec (_size s) n) as [?|_]; [lia|].
  rewrite to_ptrdiff_small, Hgrant by lia.
  destruct (Z.eqb_spec n 0) as [?|_]; [lia|].
  pose proof (length_fresh_block n ltac:(lia)) as Hfresh.
  destruct (Z_lt_ge_dec n (_nextPushPos s)) as [Habove|Hbelow].
  - rewrite copy_loop_out; [reflexivity|].
    exists n. split; lia.
  - destruct (copy_loop_shift (fun i => i) (_elements s) 0
                (Z.to_nat (_nextPushPos s)) 0 (fresh_block n))
      as (r1 & E1 & L1 & _); try lia.
    rewrite E1. run_monad.
    rewrite copy_loop_out; [reflexivity|].
    exists (_nextPushPos s). split; [lia|].
    rewrite (wrap_negative (n - _size s)) by lia.
    rewrite wrap_small by lia. lia.
Qed.

(** ** Indexed access *)

(** X13. [operator[]] shows what push and pop touch.  A push on a buffer that is
    not full writes the value into the slot at the push cursor and no other
    slot; a pop from a buffer that is not empty returns the content of the
    slot at the pop cursor, leaves that slot without an object and touches
    no other slot.  Outside of the block the access has no defined
    behaviour. *)
Theorem slots_touched G C (x : T) s :
  in_bounds s ->
  (_count s <> _size s ->
   exists s', push G C x s = Done tt s' /\
              at_index s' (_nextPushPos s) = Some (Some x) /\
              forall j, j <> _nextPushPos s -> at_index s' j = at_index s j) /\
  (_count s <> 0 ->
   exists v s', pop C s = Done v s' /\
                at_index s (_nextPopPos s) = Some v /\
                at_index s' (_nextPopPos s) = Some None /\
                forall j, j <> _nextPopPos s -> at_index s' j = at_index s j) /\
  (forall j, j < 0 \/ _size s <= j -> at_index s j = None).
Proof.
  intros [Hsz Hblk Hhd Htl]. pose proof pow_w_half as Hhalf.
  assert (Hframe : forall p v j, 0 <= p < _size s -> j <> p ->
            load (<[Z.to_nat p := v]> (_elements s)) j = load (_elements s) j).
  { intros p v j Hp Hj. unfold load, in_block. rewrite length_insert.
    destruct (Z.leb_spec 0 j), (Z.ltb_spec j (Z.of_nat (length (_elements s))));
      cbn [andb]; try reflexivity.
    apply list_lookup_insert_ne. lia. }
  split; [|split].
  - intros Hnf. rewrite push_not_full, store_in by lia.
    eexists. split; [reflexivity|]. unfold at_index. cbn [_elements].
    split; [|intros j Hj; apply Hframe; lia].
    rewrite load_in by (rewrite length_insert; lia).
    apply list_lookup_insert_eq. lia.
  - intros Hne. rewrite pop_not_empty, pop_unchecked, load_in, store_in by lia.
    destruct (lookup_lt_is_Some_2 (_elements s) (Z.to_nat (_nextPopPos s)))
      as [v Hv]; [lia|].
    rewrite Hv. eexists _, _. split; [reflexivity|].
    unfold at_index. cbn [_elements].
    rewrite !load_in by (rewrite ?length_insert; lia).
    split; [exact Hv|]. split; [apply list_lookup_insert_eq; lia|].
    intros j Hj. apply Hframe; lia.
  - intros j Hj. unfold at_index, load, in_block.
    destruct (Z.leb_spec 0 j), (Z.ltb_spec j (Z.of_nat (length (_elements s))));
      cbn [andb]; try reflexivity. lia.
Qed.

(** ** Growing buffers *)

Lemma pushes_grow_Rep G vs : forall s l,
  G <> NoGrow -> Rep s l ->
  (forall n, 0 < n < 2 ^ (w - 1) -> get_temporary_buffer n = n) ->
  2 * (_count s + Z.of_nat (length vs)) < 2 ^ (w - 1) ->
  exists s', pushes G NoBoundaryCheck vs s = Done tt s' /\ Rep s' (l ++ vs).
Proof.
  induction vs as [|v vs IH]; intros s l HG HR Hgrant Hbound;
    cbn [pushes length] in *.
  - exists s. rewrite app_nil_r. auto.
  - pose proof pow_w_half as Hhalf.
    pose proof HR as [[Hsz Hblk Hhd Htl] Hcnt Hle Htail Hlive].
    assert (Hpush : exists s1, push G NoBoundaryCheck v s = Done tt s1 /\
                               Rep s1 (l ++ [v])).
    { destruct (Z_lt_ge_dec (_count s) (_size s)) as [Hlt|Hge].
      - destruct (push_Rep G NoBoundaryCheck v s l HR Hlt) as (s1 & E1 & R1 & _).
        exists s1. auto.
      - assert (Hfull : _count s = _size s) by lia.
        assert (Hnew : _size s < newSize G (_size s) < 2 ^ (w - 1)).
        { destruct G; [congruence| |]; cbn [newSize];
            rewrite wrap_small by lia; lia. }
        destruct (push_grow_Rep G v s l HR Hfull Hnew) as (s1 & E1 & R1 & _);
          [apply Hgrant; lia|].
        exists s1. auto. }
    destruct Hpush as (s1 & E1 & R1).
    destruct (IH s1 (l ++ [v]) HG R1 Hgrant) as (s2 & E2 & R2).
    { rewrite (Rep_count _ _ R1), length_app. cbn [length]. lia. }
    exists s2. run_monad. rewrite E1, E2.
    rewrite <- app_assoc in R2. auto.
Qed.

(** X14. With [GrowSingle] or [GrowDouble] and no boundary check, when the
    runtime hands out every block asked for, any sequence of pushes returns
    and all the values are kept: the pops that follow return every value
    held before and every value pushed, oldest first (as long as twice the
    final count is a positive [ptrdiff_t]). *)
Theorem growing_buffer_keeps_everything G vs s l :
  G <> NoGrow -> Rep s l ->
  (forall n, 0 < n < 2 ^ (w - 1) -> get_temporary_buffer n = n) ->
  2 * (_count s + Z.of_nat (length vs)) < 2 ^ (w - 1) ->
  exists s1 s2,
    pushes G NoBoundaryCheck vs s = Done tt s1 /\
    count s1 = count s + Z.of_nat (length vs) /\
    count s1 <= size s1 /\
    pops NoBoundaryCheck (length (l ++ vs)) s1 = Done (map Some (l ++ vs)) s2.
Proof.
  intros HG HR Hgrant Hbound.
  destruct (pushes_grow_Rep G vs s l HG HR Hgrant Hbound) as (s1 & E1 & R1).
  pose proof R1 as R1'. rewrite <- (app_nil_r (l ++ vs)) in R1'.
  destruct (pops_Rep NoBoundaryCheck (l ++ vs) [] s1 R1') as (s2 & E2 & _).
  exists s1, s2. split; [exact E1|]. split; [|split; [|exact E2]].
  - unfold count.
    rewrite (Rep_count _ _ R1), (Rep_count _ _ HR), length_app. lia.
  - destruct R1 as [_ _ Hle1 _ _]. exact Hle1.
Qed.

(** X9. No buffer grows to [2^(w-1)] slots or more: a push without a boundary
    check on a full buffer throws [bad_alloc] and leaves the buffer as it
    was, with [GrowSingle] at size [2^(w-1) - 1] and with [GrowDouble] from
    size [2^(w-2)] on, because the size asked for is not a positive
    [ptrdiff_t]. *)
Theorem growth_stops_at_ptrdiff_max G (x : T) s :
  (forall n, n <= 0 -> get_temporary_buffer n = 0) ->
  in_bounds s -> _count s = _size s ->
  G <> NoGrow ->
  (G = GrowSingle -> _size s = 2 ^ (w - 1) - 1) ->
  (G = GrowDouble -> 2 ^ (w - 1) <= 2 * _size s) ->
  push G NoBoundaryCheck x s = Thrown bad_alloc s.
Proof.
  intros Hstd [Hsz Hblk Hhd Htl] Hfull HG HS HD.
  pose proof pow_w_half as Hhalf.
  assert (Hnew : 2 ^ (w - 1) <= newSize G (_size s) < 2 ^ w).
  { destruct G; [congruence| |]; cbn [newSize].
    - specialize (HS eq_refl). rewrite wrap_small by lia. lia.
    - specialize (HD eq_refl). rewrite wrap_small by lia. lia. }
  rewrite push_unchecked_full_eq by assumption.
  rewrite resize_no_block; [reflexivity|lia|].
  apply Hstd. unfold to_ptrdiff.
  destruct (Z.ltb_spec (newSize G (_size s)) (2 ^ (w - 1))); lia.
Qed.

(** ** The capacity invariant under every policy *)

Lemma reachable_mono G C (P Q : CircularBuffer -> op -> Prop) s :
  (forall s o, P s o -> Q s o) -> reachable G C P s -> reachable G C Q s.
Proof.
  intros HPQ Hreach.
  induction Hreach as [n s Hn Hcons | s o s' _ IH Hallowed Hstep].
  - eapply reach_construct; eassumption.
  - eapply reach_step; [exact IH | apply HPQ; exact Hallowed | exact Hstep].
Qed.

Section StandardRuntime.

(** The runtime hands out nothing for a request that is not positive. *)
Hypothesis no_storage_for_nonpositive :
  forall n, n <= 0 -> get_temporary_buffer n = 0.

(** What a [resize] to another size leaves behind. *)
Lemma resize_outcome n s :
  size_t n -> _size s <> n ->
  match resize n s with
  | Done _ s1 =>
      _size s1 = n /\ _count s1 = _count s /\ 0 < n < 2 ^ (w - 1)
  | Thrown _ s1 => s1 = s
  | Undefined => True
  end.
Proof.
  intros Hn Hne. apply Z.eqb_neq in Hne. unfold resize. run_monad.
  rewrite Hne.
  destruct (Z.eqb_spec (get_temporary_buffer (to_ptrdiff n)) 0) as [|Hgrant];
    run_monad; [reflexivity|].
  assert (Hpos : 0 < to_ptrdiff n).
  { destruct (Z_lt_ge_dec 0 (to_ptrdiff n)) as [|Hle]; [assumption|].
    exfalso. apply Hgrant. apply no_storage_for_nonpositive. lia. }
  destruct (to_ptrdiff_positive n Hn Hpos) as [Hrange _].
  destruct (copy_loop _ _ _ _ _); run_monad; [|exact I].
  destruct (copy_loop _ _ _ _ _); run_monad; [|exact I].
  auto.
Qed.

Lemma construct_bounded n s : size_t n -> construct n = inr s -> bounded s.
Proof.
  intros Hn Hcons.
  pose proof (construct_size n s no_storage_for_nonpositive Hn Hcons) as Hsz.
  split; [exact Hsz|].
  unfold construct in Hcons. destruct (_ =? 0); [discriminate|].
  injection Hcons as <-. cbn [_size _count] in *. lia.
Qed.

Lemma resize_bounded n s s' :
  bounded s -> size_t n -> _count s <= n ->
  final (resize n s) = Some s' -> bounded s'.
Proof.
  intros [Hsz Hc] Hn Hle.
  destruct (Z.eq_dec (_size s) n) as [<-|Hne].
  - rewrite resize_same. cbn [final]. intros [= <-]. split; assumption.
  - pose proof (resize_outcome n s Hn Hne) as Hout.
    destruct (resize n s) as [[] s1|e s1|]; cbn [final]; [| |discriminate];
      intros [= <-].
    + destruct Hout as (Hs1 & Hc1 & Hrange). unfold bounded.
      rewrite Hs1, Hc1. lia.
    + subst s1. split; assumption.
Qed.

Lemma push_bounded G C x s s' :
  bounded s -> bookkeeping_kept G C s (OpPush x) ->
  final (push G C x s) = Some s' -> bounded s'.
Proof.
  intros [Hsz Hc] Hkept. pose proof pow_w_half as Hhalf.
  destruct (Z.eq_dec (_count s) (_size s)) as [Hfull|Hnf].
  - destruct C.
    + assert (HG : G <> NoGrow).
      { destruct Hkept as [?|[?|?]]; [discriminate|assumption|contradiction]. }
      rewrite push_unchecked_full_eq by assumption.
      assert (Hnew : size_t (newSize G (_size s)) /\
                     _size s < newSize G (_size s)).
      { unfold size_t. destruct G; [congruence| |]; cbn [newSize];
          rewrite wrap_small by lia; lia. }
      destruct Hnew as [Hn Hgt].
      pose proof (resize_outcome _ s Hn ltac:(lia)) as Hout.
      destruct (resize _ s) as [[] s1|e s1|]; cbn [final]; [| |discriminate].
      * destruct Hout as (Hs1 & Hc1 & Hrange).
        destruct (store _ _ _); cbn [final]; [|discriminate].
        intros [= <-]. unfold bounded. cbn [_size _count].
        rewrite Hs1, Hc1, wrap_small by lia. lia.
      * intros [= <-]. subst s1. split; assumption.
    + rewrite push_checked_full by assumption. cbn [final].
      intros [= <-]. split; assumption.
  - rewrite push_not_full by assumption.
    destruct (store _ _ _); cbn [final]; [|discriminate].
    intros [= <-]. unfold bounded. cbn [_size _count].
    rewrite wrap_small by lia. lia.
Qed.

Lemma pop_bounded C s s' :
  bounded s -> C = CheckBoundaryThrow \/ _count s <> 0 ->
  final (pop C s) = Some s' -> bounded s'.
Proof.
  intros [Hsz Hc] Hkept. pose proof pow_w_half as Hhalf.
  destruct (Z.eq_dec (_count s) 0) as [Hempty|Hne].
  - destruct Hkept as [->|?]; [|contradiction].
    rewrite pop_checked_empty by assumption. cbn [final].
    intros [= <-]. split; assumption.
  - rewrite pop_not_empty, pop_unchecked by assumption.
    destruct (load _ _); cbn [final]; [|discriminate].
    destruct (store _ _ _); cbn [final]; [|discriminate].
    intros [= <-]. unfold bounded. cbn [_size _count].
    rewrite wrap_small by lia. lia.
Qed.

Lemma clear_bounded C fuel : forall s o s',
  bounded s -> clear C fuel s = Some o -> final o = Some s' -> bounded s'.
Proof.
  induction fuel as [|fuel IH]; intros s o s' Hs; cbn [clear]; unfold count;
    destruct (Z.ltb_spec 0 (_count s)) as [Hpos|Hle]; try discriminate;
    try (intros [= <-]; cbn [final]; intros [= <-]; exact Hs).
  pose proof (pop_bounded C s) as Hpop.
  destruct (pop C s) as [v s1|e s1|]; cbn [final] in Hpop.
  - apply IH. apply Hpop; [exact Hs|right; lia|reflexivity].
  - intros [= <-]. cbn [final]. intros [= <-].
    apply Hpop; [exact Hs|right; lia|reflexivity].
  - intros [= <-]. discriminate.
Qed.

Lemma reachable_bounded G C s :
  reachable G C (bookkeeping_kept G C) s -> bounded s.
Proof.
  intros Hreach.
  induction Hreach as [n s Hn Hcons | s o s' _ IH Hallowed Hstep].
  - eapply construct_bounded; eassumption.
  - destruct Hstep as [x s s' Hf | s s' Hf | fuel r s s' Hcl Hf | n s s' Hn Hf].
    + eapply push_bounded; eassumption.
    + eapply pop_bounded; eassumption.
    + eapply clear_bounded; eassumption.
    + eapply resize_bounded; eassumption.
Qed.

End StandardRuntime.

(** C4, as the code has it.  Under every growth and boundary policy, after
    the construction and any sequence of push, pop, clear and resize calls
    that return or throw, [0 <= count() <= size()], as long as
    - no pop is made on an empty buffer without a boundary check,
    - no push is made on a full buffer with [NoGrow] and without a boundary
      check, and
    - no resize asks for less than the current count.
    With [CheckBoundaryThrow] only the last condition restricts the calls.
    Without a boundary check the runtime is taken to hand out nothing for a
    request that is not positive, as the C++ standard has it. *)
Theorem capacity_invariant_kept G C s :
  C = CheckBoundaryThrow \/
  (forall n, n <= 0 -> get_temporary_buffer n = 0) ->
  reachable G C (bookkeeping_kept G C) s -> capacity_invariant s.
Proof.
  intros [->|Hstd] Hreach.
  - apply (capacity_invariant_checked G).
    apply (reachable_mono G CheckBoundaryThrow
             (bookkeeping_kept G CheckBoundaryThrow)); [|exact Hreach].
    intros s0 [x| | |n]; cbn; auto.
  - destruct (reachable_bounded Hstd G C s Hreach) as [_ H]. exact H.
Qed.

End CircularBuffer.

Arguments mkCircularBuffer {T} _ _ _ _ _.
Arguments _size {T} _.
Arguments _count {T} _.
Arguments _nextPushPos {T} _.
Arguments _nextPopPos {T} _.
Arguments _elements {T} _.
Arguments Done {T A} a s.
Arguments Thrown {T A} e s.
Arguments Undefined {T A}.
Arguments final {T A} o.
Arguments construct w {T} get_temporary_buffer size.
Arguments size {T} s.
Arguments count {T} s.
Arguments isEmpty {T} s.
Arguments isFull {T} s.
Arguments resize w {T} get_temporary_buffer newSize _.
Arguments push w {T} get_temporary_buffer G C elem _.
Arguments pop w {T} C _.
Arguments clear w {T} C fuel s.
Arguments at_index {T} s index.
Arguments pushes w {T} get_temporary_buffer G C vs _.
Arguments pops w {T} C n _.
Arguments in_bounds w {T} s.
Arguments Rep w {T} s l.
Arguments empty_buffer w {T} c s.
Arguments capacity_invariant {T} s.
Arguments reachable w {T} get_temporary_buffer G C allowed _.
Arguments any_call {T} s o.
Arguments resize_keeps_count {T} s o.

(** ** The scenario of capacity 2 on [int] elements *)

(** C1, as the code has it.  Capacity 2, [GrowDouble]:
    - with [CheckBoundaryThrow], after push(1) and push(2) the buffer is
      full; push(3) throws and leaves the buffer as it was, of size 2 with
      count 2; the next pops return 1, then 2; a third pop throws;
    - without a boundary check, push(3) grows the buffer to size 4, the
      count is 3 and the buffer is not full; the next pops return 1, 2, 3,
      and a fourth pop returns. *)
Theorem scenario_capacity_two w (get_temporary_buffer : Z -> Z) :
  16 <= w -> get_temporary_buffer 2 = 2 -> get_temporary_buffer 4 = 4 ->
  (exists s0 s1 s2 s3 s4 : CircularBuffer Z,
    construct w get_temporary_buffer 2 = inr s0 /\
    push w get_temporary_buffer GrowDouble CheckBoundaryThrow 1 s0
    = Done tt s1 /\
    push w get_temporary_buffer GrowDouble CheckBoundaryThrow 2 s1
    = Done tt s2 /\
    isFull s2 = true /\
    push w get_temporary_buffer GrowDouble CheckBoundaryThrow 3 s2
    = Thrown (runtime_error "buffer full") s2 /\
    size s2 = 2 /\ count s2 = 2 /\
    pop w CheckBoundaryThrow s2 = Done (Some 1) s3 /\
    pop w CheckBoundaryThrow s3 = Done (Some 2) s4 /\
    pop w CheckBoundaryThrow s4 = Thrown (runtime_error "buffer empty") s4) /\
  (exists (s0 s1 s2 s3 s4 s5 s6 s7 : CircularBuffer Z) v,
    construct w get_temporary_buffer 2 = inr s0 /\
    push w get_temporary_buffer GrowDouble NoBoundaryCheck 1 s0
    = Done tt s1 /\
    push w get_temporary_buffer GrowDouble NoBoundaryCheck 2 s1
    = Done tt s2 /\
    isFull s2 = true /\
    push w get_temporary_buffer GrowDouble NoBoundaryCheck 3 s2
    = Done tt s3 /\
    size s3 = 4 /\ count s3 = 3 /\ isFull s3 = false /\
    pop w NoBoundaryCheck s3 = Done (Some 1) s4 /\
    pop w NoBoundaryCheck s4 = Done (Some 2) s5 /\
    pop w NoBoundaryCheck s5 = Done (Some 3) s6 /\
    pop w NoBoundaryCheck s6 = Done v s7).
Proof.
  intros Hw Hg2 Hg4. split.
  - apply scenario_two_checked; assumption.
  - apply scenario_two_unchecked; assumption.
Qed.

Lemma scenario_capacity_two_witness :
  exists s2 : CircularBuffer Z,
    isFull s2 = true /\
    push 64 full_grant GrowDouble CheckBoundaryThrow 3 s2
    = Thrown (runtime_error "buffer full") s2.
Proof.
  destruct (scenario_capacity_two 64 full_grant) as [Hchecked _];
    [lia | reflexivity | reflexivity |].
  destruct Hchecked as (s0 & s1 & s2 & s3 & s4 & _ & _ & _ & Hf & Hp & _).
  exists s2. split; assumption.
Defined.

(** C1 as stated fails: with [CheckBoundaryThrow] the third push does not
    grow the buffer, it throws. *)
Lemma third_push_checked_throws :
  let s0 : CircularBuffer Z := mkCircularBuffer 2 0 0 0 [None; None] in
  let s1 := mkCircularBuffer 2 1 1 0 [Some 1; None] in
  let s2 := mkCircularBuffer 2 2 0 0 [Some 1; Some 2] in
  construct 64 full_grant 2 = inr s0 /\
  push 64 full_grant GrowDouble CheckBoundaryThrow 1 s0 = Done tt s1 /\
  push 64 full_grant GrowDouble CheckBoundaryThrow 2 s1 = Done tt s2 /\
  isFull s2 = true /\
  push 64 full_grant GrowDouble CheckBoundaryThrow 3 s2
  = Thrown (runtime_error "buffer full") s2 /\
  ~ (exists s3, push 64 full_grant GrowDouble CheckBoundaryThrow 3 s2
                = Done tt s3 /\ size s3 = 4 /\ count s3 = 3).
Proof.
  cbv zeta. repeat split; try (vm_compute; reflexivity).
  intros (s3 & H & _). vm_compute in H. discriminate.
Qed.

(** ** Concrete buffers, with a 64-bit [size_t] *)

Ltac concrete_bounds :=
  constructor; cbn [_size _count _nextPushPos _nextPopPos _elements length];
  vm_compute; repeat split; congruence.

Lemma in_bounds_two_empty :
  in_bounds 64 (mkCircularBuffer (T := Z) 2 0 0 0 [None; None]).
Proof. concrete_bounds. Defined.

Lemma empty_buffer_two :
  empty_buffer 64 2 (mkCircularBuffer (T := Z) 2 0 0 0 [None; None]).
Proof.
  split; [exact in_bounds_two_empty|]. repeat split.
Defined.

Lemma Rep_one_full : Rep 64 (mkCircularBuffer 1 1 0 0 [Some 7]) [7].
Proof.
  constructor.
  - concrete_bounds.
  - reflexivity.
  - vm_compute. congruence.
  - reflexivity.
  - intros [|k] v Hk; [|destruct k; discriminate].
    injection Hk as <-. reflexivity.
Defined.

Lemma fifo_order_witness :
  (exists s1 s2 : CircularBuffer Z,
     pushes 64 full_grant NoGrow NoBoundaryCheck [10; 20]
       (mkCircularBuffer 2 0 0 0 [None; None]) = Done tt s1 /\
     pops 64 NoBoundaryCheck 2 s1 = Done [Some 10; Some 20] s2) /\
  (exists s1 s2 : CircularBuffer Z,
     push 64 full_grant NoGrow NoBoundaryCheck 30
       (mkCircularBuffer 2 0 0 0 [None; None]) = Done tt s1 /\
     pop 64 NoBoundaryCheck s1 = Done (Some 30) s2).
Proof.
  destruct (fifo_order 64 Z full_grant ltac:(lia) NoGrow NoBoundaryCheck 2
              (mkCircularBuffer 2 0 0 0 [None; None]) [10; 20] 30
              empty_buffer_two) as [Hfifo Hround].
  split; [apply Hfifo | apply Hround]; vm_compute; congruence.
Defined.

Lemma checked_nogrow_errors_witness :
  push 64 full_grant NoGrow CheckBoundaryThrow 8
    (mkCircularBuffer 1 1 0 0 [Some 7])
  = Thrown (runtime_error "buffer full") (mkCircularBuffer 1 1 0 0 [Some 7]) /\
  pop 64 CheckBoundaryThrow (mkCircularBuffer (T := Z) 1 0 0 0 [None])
  = Thrown (runtime_error "buffer empty") (mkCircularBuffer 1 0 0 0 [None]).
Proof.
  split.
  - apply (proj1 (checked_nogrow_errors 64 Z full_grant 8
                    (mkCircularBuffer 1 1 0 0 [Some 7]))).
    reflexivity.
  - apply (proj2 (checked_nogrow_errors 64 Z full_grant 0
                    (mkCircularBuffer 1 0 0 0 [None]))).
    reflexivity.
Defined.

Lemma checked_push_never_grows_witness :
  push 64 full_grant GrowDouble CheckBoundaryThrow 8
    (mkCircularBuffer 1 1 0 0 [Some 7])
  = Thrown (runtime_error "buffer full") (mkCircularBuffer 1 1 0 0 [Some 7]).
Proof.
  apply (proj1 (checked_push_never_grows 64 Z full_grant GrowDouble NoGrow 8
                  (mkCircularBuffer 1 1 0 0 [Some 7]))).
  reflexivity.
Defined.

Lemma unchecked_pop_empty_wraps_witness :
  exists v s',
    pop 64 NoBoundaryCheck (mkCircularBuffer (T := Z) 2 0 0 0 [None; None])
    = Done v s' /\
    count s' = 18446744073709551615 /\ isEmpty s' = false /\
    size s' < count s'.
Proof.
  destruct (unchecked_pop_empty_wraps 64 Z ltac:(lia)
              (mkCircularBuffer 2 0 0 0 [None; None]) in_bounds_two_empty
              eq_refl) as (v & s' & Hpop & _ & Hcount & Hne & Hgt).
  exists v, s'. repeat split; assumption.
Defined.

Lemma clear_pops_until_empty_witness :
  clear 64 CheckBoundaryThrow 0 (mkCircularBuffer (T := Z) 1 0 0 0 [None])
  = Some (Done tt (mkCircularBuffer 1 0 0 0 [None])) /\
  exists s' : CircularBuffer Z,
    clear 64 CheckBoundaryThrow 1 (mkCircularBuffer 1 1 0 0 [Some 7])
    = Some (Done tt s') /\ count s' = 0.
Proof.
  split.
  - apply (proj1 (proj2 (clear_pops_until_empty 64 Z ltac:(lia)
                           CheckBoundaryThrow
                           (mkCircularBuffer 1 0 0 0 [None])))).
    reflexivity.
  - destruct (proj2 (proj2 (clear_pops_until_empty 64 Z ltac:(lia)
                              CheckBoundaryThrow
                              (mkCircularBuffer 1 1 0 0 [Some 7]))))
      as (s' & Hclear & _ & Hzero).
    + concrete_bounds.
    + vm_compute. split; congruence.
    + exists s'. split; [apply Hclear; vm_compute; lia | exact Hzero].
Defined.

Lemma capacity_invariant_checked_witness :
  capacity_invariant (mkCircularBuffer (T := Z) 2 0 0 0 [None; None]).
Proof.
  apply (capacity_invariant_checked 64 Z full_grant ltac:(lia) GrowDouble).
  apply (reach_construct 64 Z full_grant _ _ _ 2).
  - vm_compute. split; congruence.
  - reflexivity.
Defined.

(** C4 as stated fails: without a boundary check, a pop on a new buffer
    leaves a count above the size. *)
Lemma unchecked_pop_breaks_capacity_invariant :
  exists s : CircularBuffer Z,
    reachable 64 full_grant NoGrow NoBoundaryCheck any_call s /\
    ~ capacity_invariant s.
Proof.
  exists (mkCircularBuffer 1 18446744073709551615 0 0 [None]). split.
  - apply (reach_step 64 Z full_grant _ _ _
             (mkCircularBuffer 1 0 0 0 [None]) (OpPop Z)).
    + apply (reach_construct 64 Z full_grant _ _ _ 1);
        [vm_compute; split; congruence | reflexivity].
    + exact I.
    + apply step_pop. reflexivity.
  - unfold capacity_invariant, count, size. cbn [_count _size]. lia.
Qed.

Lemma grow_single_full_push_witness :
  (exists s1 s2 : CircularBuffer Z,
     push 64 full_grant GrowSingle NoBoundaryCheck 8
       (mkCircularBuffer 1 1 0 0 [Some 7]) = Done tt s1 /\
     size s1 = 2 /\
     pops 64 NoBoundaryCheck 2 s1 = Done [Some 7; Some 8] s2) /\
  push 64 full_grant GrowSingle CheckBoundaryThrow 8
    (mkCircularBuffer 1 1 0 0 [Some 7])
  = Thrown (runtime_error "buffer full") (mkCircularBuffer 1 1 0 0 [Some 7]).
Proof.
  destruct (grow_single_full_push 64 Z full_grant ltac:(lia) 8
              (mkCircularBuffer 1 1 0 0 [Some 7]) [7] Rep_one_full eq_refl)
    as [Hgrow Hthrow].
  split; [|exact Hthrow].
  apply Hgrow; vm_compute; congruence.
Defined.

(** C5 as stated fails: with [CheckBoundaryThrow] and [GrowSingle], a push
    on a full buffer throws and [size()] stays the same. *)
Lemma grow_single_checked_does_not_grow :
  let s := mkCircularBuffer 1 1 0 0 [Some 7] in
  isFull s = true /\
  push 64 full_grant GrowSingle CheckBoundaryThrow 8 s
  = Thrown (runtime_error "buffer full") s /\
  ~ (exists s', final (push 64 full_grant GrowSingle CheckBoundaryThrow 8 s)
                = Some s' /\ size s' = size s + 1).
Proof.
  cbv zeta. repeat split; try reflexivity.
  intros (s' & H & Hsz). vm_compute in H. injection H as <-.
  vm_compute in Hsz. discriminate.
Qed.

Lemma grow_double_policy_witness :
  newSize 64 GrowDouble 0 = 0 /\
  (exists s' : CircularBuffer Z,
     push 64 full_grant GrowDouble NoBoundaryCheck 8
       (mkCircularBuffer 1 1 0 0 [Some 7]) = Done tt s' /\
     size s' = 2) /\
  construct 64 (T := Z) full_grant 0 = inl bad_alloc.
Proof.
  destruct (grow_double_policy 64 Z full_grant ltac:(lia))
    as (_ & Hzero & Hpush & Hcons).
  split; [exact Hzero|]. split.
  - destruct (Hpush 8 (mkCircularBuffer 1 1 0 0 [Some 7]) [7] Rep_one_full
                eq_refl) as (s' & Hp & Hs & _);
      [vm_compute; congruence | reflexivity |].
    exists s'. split; assumption.
  - apply Hcons. intros n Hn. unfold full_grant.
    destruct (Z.ltb_spec 0 n); [lia | reflexivity].
Defined.

(** C6 as stated fails: [GrowDouble] maps capacity 0 to 0, not to 1, and a
    buffer of size 0 is never constructed. *)
Lemma grow_double_zero_is_zero :
  newSize 64 GrowDouble 0 = 0 /\ newSize 64 GrowDouble 0 <> 1 /\
  construct 64 (T := Z) full_grant 0 = inl bad_alloc.
Proof.
  repeat split; try reflexivity. vm_compute. congruence.
Qed.

(** ** [resize] on a buffer whose live range does not reach the block end *)

(** C3 at [CircularBuffer<int> b(3); b.push(65); b.resize(5); b.pop()]:
    the element stays in slot 0 while the pop cursor moves to the fresh
    slot 2, so the pop returns the indeterminate content of that slot and
    not 65. *)
Theorem resize_unwrapped_loses_element G C :
  exists s0 s1 s2 s3 : CircularBuffer Z,
    construct 64 full_grant 3 = inr s0 /\
    push 64 full_grant G C 65 s0 = Done tt s1 /\
    count s1 = 1 /\ size s1 < 5 /\
    resize 64 full_grant 5 s1 = Done tt s2 /\
    count s2 = 1 /\ size s2 = 5 /\
    at_index s2 0 = Some (Some 65) /\
    _nextPopPos s2 = 2 /\ at_index s2 2 = Some None /\
    pop 64 C s2 = Done None s3.
Proof.
  exists (mkCircularBuffer 3 0 0 0 [None; None; None]),
         (mkCircularBuffer 3 1 1 0 [Some 65; None; None]),
         (mkCircularBuffer 5 1 1 2 [Some 65; None; None; None; None]),
         (mkCircularBuffer 5 0 1 3 [Some 65; None; None; None; None]).
  destruct G, C; repeat split; vm_compute; congruence.
Qed.

(** The same defect on an empty buffer,
    [CircularBuffer<int> b(3); b.resize(5); b.push(65); b.pop()]: the
    cursors part, and the pop does not return the value just pushed. *)
Lemma resize_empty_parts_cursors G C :
  exists s0 s1 s2 s3 : CircularBuffer Z,
    construct 64 full_grant 3 = inr s0 /\
    resize 64 full_grant 5 s0 = Done tt s1 /\
    isEmpty s1 = true /\ _nextPushPos s1 = 0 /\ _nextPopPos s1 = 2 /\
    push 64 full_grant G C 65 s1 = Done tt s2 /\
    pop 64 C s2 = Done None s3.
Proof.
  exists (mkCircularBuffer 3 0 0 0 [None; None; None]),
         (mkCircularBuffer 5 0 0 2 [None; None; None; None; None]),
         (mkCircularBuffer 5 1 1 2 [Some 65; None; None; None; None]),
         (mkCircularBuffer 5 0 1 3 [Some 65; None; None; None; None]).
  destruct G, C; repeat split; vm_compute; congruence.
Qed.

(** A [resize] below the count breaks the capacity invariant under
    [CheckBoundaryThrow] too: capacity 2, push, push, pop, push, then
    [resize(1)] leaves two counted elements in a buffer of size 1. *)
Lemma shrinking_resize_breaks_capacity_invariant :
  exists s : CircularBuffer Z,
    reachable 64 full_grant NoGrow CheckBoundaryThrow any_call s /\
    ~ capacity_invariant s.
Proof.
  exists (mkCircularBuffer 1 2 1 0 [Some 2]). split.
  - apply (reach_step 64 Z full_grant _ _ _
             (mkCircularBuffer 2 2 1 1 [Some 3; Some 2]) (OpResize Z 1));
      [|exact I|apply step_resize; [vm_compute; split; congruence|reflexivity]].
    apply (reach_step 64 Z full_grant _ _ _
             (mkCircularBuffer 2 1 0 1 [None; Some 2]) (OpPush Z 3));
      [|exact I|apply step_push; reflexivity].
    apply (reach_step 64 Z full_grant _ _ _
             (mkCircularBuffer 2 2 0 0 [Some 1; Some 2]) (OpPop Z));
      [|exact I|apply step_pop; reflexivity].
    apply (reach_step 64 Z full_grant _ _ _
             (mkCircularBuffer 2 1 1 0 [Some 1; None]) (OpPush Z 2));
      [|exact I|apply step_push; reflexivity].
    apply (reach_step 64 Z full_grant _ _ _
             (mkCircularBuffer 2 0 0 0 [None; None]) (OpPush Z 1));
      [|exact I|apply step_push; reflexivity].
    apply (reach_construct 64 Z full_grant _ _ _ 2);
      [vm_compute; split; congruence | reflexivity].
  - unfold capacity_invariant, count, size. cbn [_count _size]. lia.
Qed.

Arguments fresh_block {T} n.
Arguments destructor w {T} C fuel s.
Arguments Tidy w {T} s l.
Arguments safe w {T} s.
Arguments call w {T} get_temporary_buffer G C o s.
Arguments calls w {T} get_temporary_buffer G C os s.
Arguments queue_call {T} cap o l.
Arguments queue_calls {T} cap os l.
Arguments keeps_capacity {T} o.
Arguments resize_grows {T} s o.
Arguments OpPush {T} x.
Arguments OpPop {T}.
Arguments OpClear {T}.
Arguments OpResize {T} newSize.
Arguments Returned {T}.
Arguments Popped {T} v.
Arguments Threw {T} e.

(** ** More concrete buffers *)

Lemma full_grant_all_or_nothing : all_or_nothing full_grant.
Proof.
  intros n. unfold full_grant. destruct (Z.ltb_spec 0 n); [right|left]; auto.
Defined.

Lemma full_grant_positive n : 0 < n < 2 ^ (64 - 1) -> full_grant n = n.
Proof.
  intros Hn. unfold full_grant. destruct (Z.ltb_spec 0 n); [reflexivity|lia].
Defined.

Lemma Tidy_two_empty :
  Tidy 64 (mkCircularBuffer (T := Z) 2 0 0 0 [None; None]) [].
Proof.
  apply (fresh_Tidy 64 Z ltac:(lia) 2). vm_compute. split; congruence.
Defined.

Lemma Tidy_one_full : Tidy 64 (mkCircularBuffer 1 1 0 0 [Some 7]) [7].
Proof.
  split; [exact Rep_one_full|].
  intros k Hk Hlt. cbn [length _size] in *. lia.
Defined.

Lemma Rep_three_one :
  Rep 64 (mkCircularBuffer 3 1 1 0 [Some 65; None; None]) [65].
Proof.
  constructor.
  - concrete_bounds.
  - reflexivity.
  - vm_compute. congruence.
  - reflexivity.
  - intros [|k] v Hk; [|destruct k; discriminate].
    injection Hk as <-. reflexivity.
Defined.

Lemma construct_spec_witness :
  construct 64 (T := Z) full_grant 0 = inl bad_alloc /\
  (construct 64 (T := Z) full_grant 2 = inl bad_alloc \/
   construct 64 (T := Z) full_grant 2
   = inr (mkCircularBuffer 2 0 0 0 (fresh_block 2)) /\
   0 < 2 < 2 ^ (64 - 1) /\
   Tidy 64 (mkCircularBuffer (T := Z) 2 0 0 0 (fresh_block 2)) []).
Proof.
  split.
  - apply (construct_spec 64 Z full_grant ltac:(lia) 0
             full_grant_all_or_nothing).
    + vm_compute. split; congruence.
    + left. reflexivity.
  - apply (construct_spec 64 Z full_grant ltac:(lia) 2
             full_grant_all_or_nothing).
    vm_compute. split; congruence.
Defined.

Lemma resize_throws_unchanged_witness :
  resize 64 no_grant 5 (mkCircularBuffer 1 1 0 0 [Some 7])
  = Thrown bad_alloc (mkCircularBuffer 1 1 0 0 [Some 7]) /\
  resize 64 no_grant 1 (mkCircularBuffer 1 1 0 0 [Some 7])
  = Done tt (mkCircularBuffer 1 1 0 0 [Some 7]).
Proof.
  destruct (resize_throws_unchanged 64 Z no_grant 5
              (mkCircularBuffer 1 1 0 0 [Some 7])) as (_ & _ & Hthrow).
  destruct (resize_throws_unchanged 64 Z no_grant 1
              (mkCircularBuffer 1 1 0 0 [Some 7])) as (Hsame & _).
  split; [apply Hthrow | apply Hsame]; vm_compute; congruence.
Defined.

Lemma resize_migration_layout_witness :
  exists s' : CircularBuffer Z,
    resize 64 full_grant 5 (mkCircularBuffer 3 1 1 0 [Some 65; None; None])
    = Done tt s' /\
    size s' = 5 /\ _nextPopPos s' = 2 /\ at_index s' 0 = Some (Some 65).
Proof.
  destruct (resize_migration_layout 64 Z full_grant ltac:(lia)
              (mkCircularBuffer 3 1 1 0 [Some 65; None; None]) 5)
    as (s' & E & Hs & _ & _ & Hh & _ & Hlow & _).
  - concrete_bounds.
  - vm_compute. split; congruence.
  - reflexivity.
  - exists s'. split; [exact E|]. split; [exact Hs|]. split; [exact Hh|].
    rewrite Hlow; [reflexivity | cbn; lia].
Defined.

Lemma resize_wrapped_keeps_queue_witness :
  exists s1 s2 : CircularBuffer Z,
    resize 64 full_grant 2 (mkCircularBuffer 1 1 0 0 [Some 7]) = Done tt s1 /\
    size s1 = 2 /\
    pops 64 CheckBoundaryThrow 1 s1 = Done [Some 7] s2.
Proof.
  destruct (resize_wrapped_keeps_queue 64 Z full_grant ltac:(lia)
              CheckBoundaryThrow (mkCircularBuffer 1 1 0 0 [Some 7]) [7] 2
              Rep_one_full)
    as (s1 & s2 & E & Hs & _ & Hp).
  - reflexivity.
  - cbn [_nextPushPos _nextPopPos]. lia.
  - vm_compute. split; congruence.
  - reflexivity.
  - exists s1, s2. auto.
Defined.

Lemma resize_unwrapped_skips_witness :
  exists s1 s2 : CircularBuffer Z,
    resize 64 full_grant 5 (mkCircularBuffer 3 1 1 0 [Some 65; None; None])
    = Done tt s1 /\
    pop 64 CheckBoundaryThrow s1 = Done None s2.
Proof.
  destruct (resize_unwrapped_skips 64 Z full_grant ltac:(lia)
              CheckBoundaryThrow
              (mkCircularBuffer 3 1 1 0 [Some 65; None; None]) [65] 5
              Rep_three_one)
    as (s1 & s2 & E & Hp).
  - reflexivity.
  - vm_compute. split; congruence.
  - reflexivity.
  - exists s1, s2. auto.
Defined.

Lemma resize_shrink_undefined_witness :
  resize 64 full_grant 2
    (mkCircularBuffer (T := Z) 4 0 0 0 [None; None; None; None])
  = Undefined.
Proof.
  apply (resize_shrink_undefined 64 Z full_grant ltac:(lia)).
  - concrete_bounds.
  - vm_compute. split; congruence.
  - reflexivity.
  - right. vm_compute. congruence.
Defined.

Lemma push_default_overwrites_oldest_witness :
  exists s' s'' : CircularBuffer Z,
    push 64 full_grant NoGrow NoBoundaryCheck 8
      (mkCircularBuffer 1 1 0 0 [Some 7]) = Done tt s' /\
    count s' = 2 /\ size s' = 1 /\
    pop 64 NoBoundaryCheck s' = Done (Some 8) s''.
Proof.
  destruct (push_default_overwrites_oldest 64 Z full_grant ltac:(lia) 8 7 []
              (mkCircularBuffer 1 1 0 0 [Some 7]) Rep_one_full eq_refl)
    as (s' & s'' & E & Hs & Hc & _ & _ & _ & Hp).
  exists s', s''. auto.
Defined.

Lemma push_growth_failure_unchanged_witness :
  push 64 no_grant GrowSingle NoBoundaryCheck 8
    (mkCircularBuffer 1 1 0 0 [Some 7])
  = Thrown bad_alloc (mkCircularBuffer 1 1 0 0 [Some 7]).
Proof.
  apply (push_growth_failure_unchanged 64 Z no_grant GrowSingle 8
           (mkCircularBuffer 1 1 0 0 [Some 7]));
    vm_compute; congruence.
Defined.


Lemma checked_buffer_is_bounded_queue_witness :
  exists s' : CircularBuffer Z,
    calls 64 full_grant NoGrow CheckBoundaryThrow
      [OpPush 1; OpPush 2; OpPush 3; OpPop; OpClear; OpPop]
      (mkCircularBuffer 2 0 0 0 [None; None])
    = Some ([Returned; Returned; Threw (runtime_error "buffer full");
             Popped (Some 1); Returned;
             Threw (runtime_error "buffer empty")], s').
Proof.
  destruct (checked_buffer_is_bounded_queue 64 Z full_grant ltac:(lia) NoGrow
              [OpPush 1; OpPush 2; OpPush 3; OpPop; OpClear; OpPop]
              (mkCircularBuffer 2 0 0 0 [None; None]) [] Tidy_two_empty)
    as (s' & E & _).
  - repeat constructor.
  - exists s'. exact E.
Defined.

Lemma destructor_destroys_all_witness :
  exists s'' : CircularBuffer Z,
    destructor 64 NoBoundaryCheck 1 (mkCircularBuffer 1 1 0 0 [Some 7])
    = Some (Done [None] s'').
Proof.
  destruct (destructor_destroys_all 64 Z ltac:(lia) NoBoundaryCheck
              (mkCircularBuffer 1 1 0 0 [Some 7]) [7] Tidy_one_full)
    as (_ & s'' & E).
  exists s''. exact E.
Defined.

Lemma slots_touched_witness :
  exists s' : CircularBuffer Z,
    push 64 full_grant NoGrow NoBoundaryCheck 9
      (mkCircularBuffer 2 0 0 0 [None; None]) = Done tt s' /\
    at_index s' 0 = Some (Some 9) /\ at_index s' 1 = Some None.
Proof.
  destruct (slots_touched 64 Z full_grant ltac:(lia) NoGrow NoBoundaryCheck 9
              (mkCircularBuffer 2 0 0 0 [None; None]) in_bounds_two_empty)
    as (Hpush & _).
  destruct Hpush as (s' & E & Hat & Hframe); [vm_compute; congruence|].
  exists s'. split; [exact E|]. split; [exact Hat|].
  rewrite Hframe; [reflexivity | vm_compute; congruence].
Defined.

Lemma growing_buffer_keeps_everything_witness :
  exists s1 s2 : CircularBuffer Z,
    pushes 64 full_grant GrowDouble NoBoundaryCheck [8; 9]
      (mkCircularBuffer 1 1 0 0 [Some 7]) = Done tt s1 /\
    count s1 = 3 /\
    pops 64 NoBoundaryCheck 3 s1 = Done [Some 7; Some 8; Some 9] s2.
Proof.
  destruct (growing_buffer_keeps_everything 64 Z full_grant ltac:(lia)
              GrowDouble [8; 9] (mkCircularBuffer 1 1 0 0 [Some 7]) [7])
    as (s1 & s2 & E & Hc & _ & Hp).
  - congruence.
  - exact Rep_one_full.
  - exact full_grant_positive.
  - vm_compute. congruence.
  - exists s1, s2. auto.
Defined.

Lemma growth_stops_at_ptrdiff_max_witness :
  push 16 full_grant GrowDouble NoBoundaryCheck 8
    (mkCircularBuffer (T := Z) 16384 16384 0 0 (fresh_block 16384))
  = Thrown bad_alloc
      (mkCircularBuffer 16384 16384 0 0 (fresh_block 16384)).
Proof.
  apply (growth_stops_at_ptrdiff_max 16 Z full_grant ltac:(lia)).
  - intros n Hn. unfold full_grant. destruct (Z.ltb_spec 0 n); [lia|reflexivity].
  - constructor; cbn [_size _count _nextPushPos _nextPopPos _elements].
    + split; [lia | reflexivity].
    + apply length_fresh_block. lia.
    + lia.
    + lia.
  - reflexivity.
  - congruence.
  - congruence.
  - intros _. cbn [_size]. change (2 ^ (16 - 1)) with 32768. lia.
Defined.

Arguments bookkeeping_kept {T} G C s o.
Arguments bounded w {T} s.

(** ** FIFO order after a [resize] of an empty buffer *)

(** C2 at [CircularBuffer<int> b(3); b.resize(5); b.push(65); b.pop()]:
    after the resize the buffer is empty, of capacity 5, with its block and
    cursors in bounds, but the pop cursor has moved to slot 2 while the push
    cursor stayed at slot 0; the one value pushed goes to slot 0 and the one
    pop returns the indeterminate content of slot 2, not 65. *)
Theorem fifo_broken_after_resize_of_empty G C :
  exists s0 s1 s2 s3 : CircularBuffer Z,
    construct 64 full_grant 3 = inr s0 /\
    resize 64 full_grant 5 s0 = Done tt s1 /\
    isEmpty s1 = true /\ count s1 = 0 /\ size s1 = 5 /\
    in_bounds 64 s1 /\
    _nextPushPos s1 = 0 /\ _nextPopPos s1 = 2 /\
    pushes 64 full_grant G C [65] s1 = Done tt s2 /\
    at_index s2 0 = Some (Some 65) /\
    pops 64 C 1 s2 = Done [None] s3.
Proof.
  exists (mkCircularBuffer 3 0 0 0 [None; None; None]),
         (mkCircularBuffer 5 0 0 2 [None; None; None; None; None]),
         (mkCircularBuffer 5 1 1 2 [Some 65; None; None; None; None]),
         (mkCircularBuffer 5 0 1 3 [Some 65; None; None; None; None]).
  repeat match goal with |- _ /\ _ => split end;
    try (destruct G, C; vm_compute; congruence).
  concrete_bounds.
Qed.

(** A block handed out in part is taken for the whole block: with one slot
    for a request of two, the constructor returns a buffer of size 2 and the
    second push writes outside of the block. *)
Lemma partial_grant_push_outside_block G C :
  construct 64 (T := Z) short_grant 2
  = inr (mkCircularBuffer 2 0 0 0 [None]) /\
  push 64 short_grant G C 1 (mkCircularBuffer 2 0 0 0 [None])
  = Done tt (mkCircularBuffer 2 1 1 0 [Some 1]) /\
  push 64 short_grant G C 2 (mkCircularBuffer 2 1 1 0 [Some 1]) = Undefined.
Proof.
  destruct G, C; repeat split; vm_compute; congruence.
Qed.

(** ** The capacity invariant along a run *)

(** Capacity 2 with [GrowDouble] and no boundary check: push 1, 2, 3 (the
    buffer grows to 4), pop, [resize(8)], clear. *)
Lemma reachable_grown_and_cleared :
  reachable 64 full_grant GrowDouble NoBoundaryCheck
    (bookkeeping_kept GrowDouble NoBoundaryCheck)
    (mkCircularBuffer (T := Z) 8 0 1 1
       [None; None; None; None; None; None; None; None]).
Proof.
  apply (reach_step 64 Z full_grant _ _ _
           (mkCircularBuffer 8 2 1 7
              [Some 3; None; None; None; None; None; None; Some 2]) OpClear);
    [|exact I
     |apply (step_clear 64 Z full_grant _ _ 2
               (Done tt (mkCircularBuffer 8 0 1 1
                  [None; None; None; None; None; None; None; None])));
      reflexivity].
  apply (reach_step 64 Z full_grant _ _ _
           (mkCircularBuffer 4 2 1 3 [Some 3; None; None; Some 2])
           (OpResize 8));
    [|vm_compute; congruence
     |apply step_resize; [vm_compute; split; congruence|reflexivity]].
  apply (reach_step 64 Z full_grant _ _ _
           (mkCircularBuffer 4 3 1 2 [Some 3; None; Some 1; Some 2]) OpPop);
    [|right; vm_compute; congruence|apply step_pop; reflexivity].
  apply (reach_step 64 Z full_grant _ _ _
           (mkCircularBuffer 2 2 0 0 [Some 1; Some 2]) (OpPush 3));
    [|right; left; congruence|apply step_push; reflexivity].
  apply (reach_step 64 Z full_grant _ _ _
           (mkCircularBuffer 2 1 1 0 [Some 1; None]) (OpPush 2));
    [|right; left; congruence|apply step_push; reflexivity].
  apply (reach_step 64 Z full_grant _ _ _
           (mkCircularBuffer 2 0 0 0 [None; None]) (OpPush 1));
    [|right; left; congruence|apply step_push; reflexivity].
  apply (reach_construct 64 Z full_grant _ _ _ 2);
    [vm_compute; split; congruence | reflexivity].
Defined.

Lemma capacity_invariant_kept_witness :
  capacity_invariant
    (mkCircularBuffer (T := Z) 8 0 1 1
       [None; None; None; None; None; None; None; None]).
Proof.
  apply (capacity_invariant_kept 64 Z full_grant ltac:(lia) GrowDouble
           NoBoundaryCheck).
  - right. intros n Hn. unfold full_grant.
    destruct (Z.ltb_spec 0 n); [lia | reflexivity].
  - exact reachable_grown_and_cleared.
Defined.

(** Without a boundary check and with [NoGrow], a push on a full buffer
    breaks the capacity invariant: capacity 1, push, push. *)
Lemma unchecked_nogrow_push_breaks_capacity_invariant :
  exists s : CircularBuffer Z,
    reachable 64 full_grant NoGrow NoBoundaryCheck any_call s /\
    ~ capacity_invariant s.
Proof.
  exists (mkCircularBuffer 1 2 0 0 [Some 8]). split.
  - apply (reach_step 64 Z full_grant _ _ _
             (mkCircularBuffer 1 1 0 0 [Some 7]) (OpPush 8));
      [|exact I|apply step_push; reflexivity].
    apply (reach_step 64 Z full_grant _ _ _
             (mkCircularBuffer 1 0 0 0 [None]) (OpPush 7));
      [|exact I|apply step_push; reflexivity].
    apply (reach_construct 64 Z full_grant _ _ _ 1);
      [vm_compute; split; congruence | reflexivity].
  - unfold capacity_invariant, count, size. cbn [_count _size]. lia.
Qed.
